(** * mario.declarative: the declarative command compiler

    A shallow embedding of [src/mario/declarative.py].  The module declares
    six marshmallow schemas (Option, Argument, RemapParam, CommandStage,
    CommandTestSpec, CommandSpec), four custom fields and four attrs
    dataclasses.  The schemas are run by marshmallow 3 ([Schema.load]) and the
    option and argument descriptors are built by click 7 ([click.Option],
    [click.Argument]); the parts of both libraries that the module's code
    reaches are embedded next to the code that calls them, each under the name
    it has in the library. *)

From Stdlib Require Import String Ascii List ZArith Bool Lia Permutation.
Import ListNotations.
Set Warnings "-register-all".
Local Open Scope string_scope.
Local Open Scope Z_scope.

(** ** Python values *)

(** A Python float: a finite binary float [m * 2^e], an infinity or a NaN. *)
Inductive pyfloat : Type :=
| FNan
| FInf (negative : bool)
| FFinite (m e : Z).

(** The raw configuration structure handed to [Schema.load]: what a TOML,
    YAML or JSON loader produces.  A [VDict] is a Python dict with string
    keys, in insertion order; [dict_get] reads the binding a dict holds for a
    key. *)
Inductive value : Type :=
| VNone
| VBool (b : bool)
| VInt (z : Z)
| VFloat (f : pyfloat)
| VStr (s : string)
| VList (l : list value)
| VDict (d : list (string * value)).

Definition dict := list (string * value).

Fixpoint dict_get (d : dict) (key : string) : option value :=
  match d with
  | [] => None
  | (k, v) :: rest => if String.eqb k key then Some v else dict_get rest key
  end.

Definition dict_keys (d : dict) : list string := map fst d.

(** The four primitive types of [TYPES]. *)
Inductive pytype : Type := Tint | Tstr | Tbool | Tfloat.

(** [t.__name__] *)
Definition type_name (t : pytype) : string :=
  match t with
  | Tint => "int"
  | Tstr => "str"
  | Tbool => "bool"
  | Tfloat => "float"
  end.

(** [TYPES = {t.__name__: t for t in [int, str, bool, float]}] *)
Definition TYPES : list (string * pytype) :=
  map (fun t => (type_name t, t)) [Tint; Tstr; Tbool; Tfloat].

Fixpoint TYPES_get (table : list (string * pytype)) (key : string)
  : option pytype :=
  match table with
  | [] => None
  | (k, t) :: rest => if String.eqb k key then Some t else TYPES_get rest key
  end.

(** ** Exceptions *)

(** The key of an entry of an error mapping: a field's external key, or the
    index of an element of a list field. *)
Inductive ekey : Type :=
| KField (name : string)
| KIndex (i : nat).

(** [ValidationError.messages]: a list of messages, or a mapping from keys
    to nested messages (insertion order kept). *)
Inductive errors : Type :=
| Messages (l : list string)
| Mapping (d : list (ekey * errors)).

(** Why a [TypeError] was raised. *)
Inductive type_error : Type :=
| MissingArguments (cls : string) (names : list string)
    (** [__init__() missing N required positional arguments: ...] *)
| UnexpectedKeyword (name : string)
    (** [__init__() got an unexpected keyword argument ...] *)
| Unhashable
    (** [unhashable type: 'list'] (or ['dict']) *)
| ClickTypeError (msg : string).
    (** a [TypeError] raised by a click constructor *)

Inductive exn : Type :=
| ValidationError (messages : errors)
| KeyError (key : value)
| TypeError (why : type_error)
| AttributeError (msg : string).

Inductive result (A : Type) : Type :=
| Ok (a : A)
| Raise (e : exn).
Arguments Ok {A} a.
Arguments Raise {A} e.

Definition bind {A B} (r : result A) (k : A -> result B) : result B :=
  match r with
  | Ok a => k a
  | Raise e => Raise e
  end.

Notation "x <- r ;; k" := (bind r (fun x => k))
  (at level 61, r at next level, right associativity).
Notation "' p <- r ;; k" := (bind r (fun x => let p := x in k))
  (at level 61, p pattern, r at next level, right associativity).

(** The outcome of one statement of a function body: control goes on to the
    next statement, or leaves the function. *)
Inductive stmt (A : Type) : Type :=
| Pass
| Return (a : A)
| Throw (e : exn).
Arguments Pass {A}.
Arguments Return {A} a.
Arguments Throw {A} e.

(** [s; rest]: [rest] runs only when [s] does not leave the function. *)
Definition then_ {A} (s : stmt A) (rest : result A) : result A :=
  match s with
  | Pass => rest
  | Return a => Ok a
  | Throw e => Raise e
  end.

Notation "s ;;; rest" := (then_ s rest) (at level 62, right associativity).

(** ** The custom fields *)

(** [TypeField._deserialize], with [default] the field's [self.default]
    ([None] for [marshmallow.missing]).  [TYPES[value]] raises [KeyError] for
    a hashable value that is no key and [TypeError] for a list or a dict;
    only the [KeyError] is handled. *)
Definition TypeField_deserialize (default : option pytype) (v : value)
  : result pytype :=
  match v with
  | VList _ | VDict _ => Raise (TypeError Unhashable)
  | VStr s =>
      match TYPES_get TYPES s with
      | Some t => Ok t
      | None =>
          match default with
          | None => Raise (KeyError v)
          | Some d => Ok d
          end
      end
  | _ =>
      match default with
      | None => Raise (KeyError v)
      | Some d => Ok d
      end
  end.

(** The double-quote character. *)
Definition dquote : string := String (ascii_of_nat 34) EmptyString.

(** [str.startswith] *)
Definition startswith (s pre : string) : bool := String.prefix pre s.

(** [OptionNameField._deserialize]: the body as written, the prefix check
    after the first [return] included. *)
Definition OptionNameField_deserialize (v : value) : result (list value) :=
  Return [v] ;;;
  match v with
  | VStr s =>
      if negb (startswith s "-")
      then Throw (ValidationError (Messages
                    [s ++ " is an option, so must start with "
                       ++ dquote ++ "-" ++ dquote ++ "."]))
      else Pass
  | _ => Throw (AttributeError "startswith")
  end ;;;
  Ok [v].

(** [ArgumentNameField._deserialize] *)
Definition ArgumentNameField_deserialize (v : value) : result (list value) :=
  Ok [v].

(** [AnyField] inherits [Field._deserialize], which returns the value. *)
Definition AnyField_deserialize (v : value) : result value := Ok v.

(** ** marshmallow's fields *)

(** [fields.String._deserialize]: a [str] passes, anything else is
    invalid. *)
Definition String_deserialize (v : value) : result string :=
  match v with
  | VStr s => Ok s
  | _ => Raise (ValidationError (Messages ["Not a valid string."]))
  end.

(** [f == z] for a float [f] and an int [z]. *)
Definition float_eq_int (f : pyfloat) (z : Z) : bool :=
  match f with
  | FFinite m e =>
      if 0 <=? e then m * 2 ^ e =? z else m =? z * 2 ^ (- e)
  | _ => false
  end.

Definition truthy_strings : list string :=
  ["t"; "T"; "true"; "True"; "TRUE"; "on"; "On"; "ON";
   "y"; "Y"; "yes"; "Yes"; "YES"; "1"].

Definition falsy_strings : list string :=
  ["f"; "F"; "false"; "False"; "FALSE"; "off"; "Off"; "OFF";
   "n"; "N"; "no"; "No"; "NO"; "0"].

Definition mem_string (s : string) (l : list string) : bool :=
  existsb (String.eqb s) l.

(** [value in self.truthy]: [truthy] holds the strings above, [1] and
    [True]. *)
Definition in_truthy (v : value) : bool :=
  match v with
  | VBool b => b
  | VInt z => z =? 1
  | VFloat f => float_eq_int f 1
  | VStr s => mem_string s truthy_strings
  | _ => false
  end.

(** [value in self.falsy]: the strings above, [0], [0.0] and [False]. *)
Definition in_falsy (v : value) : bool :=
  match v with
  | VBool b => negb b
  | VInt z => z =? 0
  | VFloat f => float_eq_int f 0
  | VStr s => mem_string s falsy_strings
  | _ => false
  end.

(** [fields.Boolean._deserialize]; the [TypeError] of an unhashable value is
    turned into the same message. *)
Definition Boolean_deserialize (v : value) : result bool :=
  if in_truthy v then Ok true
  else if in_falsy v then Ok false
  else Raise (ValidationError (Messages ["Not a valid boolean."])).

(** ASCII white space, as [str.strip] removes it. *)
Definition is_space (c : ascii) : bool :=
  let n := nat_of_ascii c in
  ((9 <=? n) && (n <=? 13) || (28 <=? n) && (n <=? 32))%nat.

Definition is_digit (c : ascii) : bool :=
  let n := nat_of_ascii c in ((48 <=? n) && (n <=? 57))%nat.

Definition digit_val (c : ascii) : Z := Z.of_nat (nat_of_ascii c - 48).

Fixpoint lstrip (s : string) : string :=
  match s with
  | String c rest => if is_space c then lstrip rest else s
  | EmptyString => s
  end.

Fixpoint rstrip (s : string) : string :=
  match s with
  | EmptyString => EmptyString
  | String c rest =>
      match rstrip rest with
      | EmptyString => if is_space c then EmptyString
                       else String c EmptyString
      | r => String c r
      end
  end.

(** The blanks that [int()] skips around the digits of an ASCII string:
    unlike [str.strip], it leaves the separators 0x1c to 0x1f in place. *)
Definition is_int_space (c : ascii) : bool :=
  let n := nat_of_ascii c in
  ((9 <=? n) && (n <=? 13) || (n =? 32))%nat.

Fixpoint int_lstrip (s : string) : string :=
  match s with
  | String c rest => if is_int_space c then int_lstrip rest else s
  | EmptyString => s
  end.

Fixpoint int_rstrip (s : string) : string :=
  match s with
  | EmptyString => EmptyString
  | String c rest =>
      match int_rstrip rest with
      | EmptyString => if is_int_space c then EmptyString
                       else String c EmptyString
      | r => String c r
      end
  end.

(** Decimal digits with single underscores between them. *)
Fixpoint parse_digits (acc : Z) (after_digit : bool) (s : string)
  : option Z :=
  match s with
  | EmptyString => if after_digit then Some acc else None
  | String c rest =>
      if is_digit c then parse_digits (10 * acc + digit_val c) true rest
      else if Ascii.eqb c "_" && after_digit
           then parse_digits acc false rest
           else None
  end.

(** [int(s)] for a string: [None] stands for [ValueError]. *)
Definition int_of_str (s : string) : option Z :=
  match int_rstrip (int_lstrip s) with
  | String "-" rest => option_map Z.opp (parse_digits 0 false rest)
  | String "+" rest => parse_digits 0 false rest
  | body => parse_digits 0 false body
  end.

(** [fields.Integer._deserialize] (not strict): booleans are refused,
    [int(value)] otherwise; [TypeError] and [ValueError] give the invalid
    message, [OverflowError] the other. *)
Definition Integer_deserialize (v : value) : result Z :=
  let invalid := Raise (ValidationError (Messages ["Not a valid integer."])) in
  match v with
  | VInt z => Ok z
  | VFloat (FFinite m e) =>
      Ok (if 0 <=? e then m * 2 ^ e else Z.quot m (2 ^ (- e)))
  | VFloat (FInf _) =>
      Raise (ValidationError (Messages ["Number too large."]))
  | VStr s =>
      match int_of_str s with
      | Some z => Ok z
      | None => invalid
      end
  | _ => invalid
  end.

(** [fields.Dict._deserialize] without key or value fields: any mapping is
    returned as it is. *)
Definition Dict_deserialize (v : value) : result dict :=
  match v with
  | VDict d => Ok d
  | _ => Raise (ValidationError (Messages ["Not a valid mapping type."]))
  end.

(** [ErrorStore]: the error mapping under construction. *)
Definition error_store := list (ekey * errors).

(** [ErrorStore.store_error] for a key the store does not hold yet (every
    external key and every index is reported at most once per load). *)
Definition store_error (store : error_store) (key : ekey) (messages : errors)
  : error_store :=
  (store ++ [(key, messages)])%list.

(** A declared field.  [f_required] and [f_missing] are the constructor's
    keyword arguments [required] (False unless passed) and [missing]
    ([None] here is [marshmallow.missing]; a callable [missing] such as
    [list] is called at each load); [f_none] is [Some n] when the field
    allows [None], which then deserializes to [n]: marshmallow allows it
    exactly when [missing=None] was passed.  The keyword argument [default]
    is the value used when an object is dumped: loading does not read it,
    except where a field's own code does ([TypeField]). *)
Record Field (A : Type) : Type := mkField {
  f_required : bool;
  f_missing : option A;
  f_none : option A;
  f_deserialize : value -> result A
}.
Arguments mkField {A}.
Arguments f_required {A}.
Arguments f_missing {A}.
Arguments f_none {A}.
Arguments f_deserialize {A}.

(** [Field.deserialize] of a value that is present. *)
Definition deserialize_present {A} (f : Field A) (v : value) : result A :=
  match v with
  | VNone =>
      match f_none f with
      | Some n => Ok n
      | None => Raise (ValidationError (Messages ["Field may not be null."]))
      end
  | _ => f_deserialize f v
  end.

(** [Field.deserialize]: [raw = None] is an absent key, and a result [None]
    is [marshmallow.missing]. *)
Definition deserialize {A} (f : Field A) (raw : option value)
  : result (option A) :=
  match raw with
  | None =>
      if f_required f
      then Raise (ValidationError
                    (Messages ["Missing data for required field."]))
      else Ok (f_missing f)
  | Some v => a <- deserialize_present f v ;; Ok (Some a)
  end.

(** [fields.List._deserialize]: the elements in order; the validation
    errors of the elements are gathered by index, any other exception leaves
    the loop. *)
Fixpoint List_items {A} (inner : value -> result A) (idx : nat)
  (l : list value) : result (list A * error_store) :=
  match l with
  | [] => Ok ([], [])
  | each :: rest =>
      match inner each with
      | Ok a =>
          ' (r, errs) <- List_items inner (S idx) rest ;; Ok (a :: r, errs)
      | Raise (ValidationError m) =>
          ' (r, errs) <- List_items inner (S idx) rest ;;
          Ok (r, (KIndex idx, m) :: errs)
      | Raise e => Raise e
      end
  end.

Definition List_deserialize {A} (inner : Field A) (v : value)
  : result (list A) :=
  match v with
  | VList l =>
      ' (r, errs) <- List_items (deserialize_present inner) 0 l ;;
      match errs with
      | [] => Ok r
      | _ => Raise (ValidationError (Mapping errs))
      end
  | _ => Raise (ValidationError (Messages ["Not a valid list."]))
  end.

(** ** marshmallow's schema *)

(** [Schema._call_and_store] around [field_obj.deserialize]: a
    [ValidationError] is stored under the field's external key and the field
    is left out; every other exception propagates. *)
Definition load_field {A} (f : Field A) (field_name : string) (data : dict)
  (store : error_store) : result (option A * error_store) :=
  match deserialize f (dict_get data field_name) with
  | Ok a => Ok (a, store)
  | Raise (ValidationError m) =>
      Ok (None, store_error store (KField field_name) m)
  | Raise e => Raise e
  end.

(** [set(data) - fields], each key once.  Python walks the set in an order
    that depends on the hashes of the keys; here the keys come in the order
    of the data, so the order of the entries of two unknown keys is one of
    the orders that a run can show. *)
Fixpoint unknown_keys (fields : list string) (seen : list string)
  (keys : list string) : list string :=
  match keys with
  | [] => []
  | k :: rest =>
      if mem_string k fields || mem_string k seen
      then unknown_keys fields seen rest
      else k :: unknown_keys fields (k :: seen) rest
  end.

(** The end of [Schema._deserialize] with [unknown = RAISE], the default:
    every key of the data that is no field's external key is an error. *)
Definition store_unknown (fields : list string) (data : dict)
  (store : error_store) : error_store :=
  fold_left (fun st k => store_error st (KField k) (Messages ["Unknown field."]))
            (unknown_keys fields [] (dict_keys data)) store.

(** [Schema.load]: [fields_pass] is the loop of [Schema._deserialize] over
    the declared fields, [data_keys] their external keys and [post_load] the
    schema's [post_load] hook, which runs only when no error was stored. *)
Definition Schema_load {V D} (data_keys : list string)
  (fields_pass : dict -> error_store -> result (V * error_store))
  (post_load : V -> result D) (data : value) : result D :=
  match data with
  | VDict d =>
      ' (validated, store) <- fields_pass d [] ;;
      match store_unknown data_keys d store with
      | [] => post_load validated
      | errs => Raise (ValidationError (Mapping errs))
      end
  | _ =>
      Raise (ValidationError
               (Mapping [(KField "_schema", Messages ["Invalid input type."])]))
  end.

(** ** click's parameters *)

Module Click.

(** Characters, ASCII only: a string with other characters is taken as
    neither an identifier nor lower-cased, where Python follows Unicode. *)
Definition is_alpha (c : ascii) : bool :=
let n := nat_of_ascii c in
((65 <=? n) && (n <=? 90) || (97 <=? n) && (n <=? 122))%nat.

Definition is_alnum (c : ascii) : bool := is_alpha c || is_digit c.

Definition is_ident_char (c : ascii) : bool :=
is_alnum c || Ascii.eqb c "_".

Fixpoint all_chars (p : ascii -> bool) (s : string) : bool :=
match s with
| EmptyString => true
| String c rest => p c && all_chars p rest
end.

(** [str.isidentifier] *)
Definition isidentifier (s : string) : bool :=
match s with
| EmptyString => false
| String c rest =>
    (is_alpha c || Ascii.eqb c "_") && all_chars is_ident_char rest
end.

Definition lower_char (c : ascii) : ascii :=
let n := nat_of_ascii c in
if ((65 <=? n) && (n <=? 90))%nat then ascii_of_nat (n + 32) else c.

(** [s.replace("-", "_").lower()] *)
Fixpoint to_name (s : string) : string :=
match s with
| EmptyString => EmptyString
| String c rest =>
    String (if Ascii.eqb c "-" then "_"%char else lower_char c)
           (to_name rest)
end.

(** [s.split(sep, 1)] when [sep in s]: the text before and after the first
  [sep]. *)
Fixpoint split_once (sep : ascii) (s : string) : option (string * string) :=
match s with
| EmptyString => None
| String c rest =>
    if Ascii.eqb c sep then Some (EmptyString, rest)
    else match split_once sep rest with
         | Some (a, b) => Some (String c a, b)
         | None => None
         end
end.

(** [click.parser.split_opt] *)
Definition split_opt (opt : string) : string * string :=
match opt with
| EmptyString => (EmptyString, EmptyString)
| String c rest =>
    if is_alnum c then (EmptyString, opt)
    else match rest with
         | String c' rest' =>
             if Ascii.eqb c' c
             then (String c (String c' EmptyString), rest')
             else (String c EmptyString, rest)
         | EmptyString => (String c EmptyString, EmptyString)
         end
end.

Definition nonempty (s : string) : bool :=
match s with EmptyString => false | _ => true end.

(** The local variables of [Option._parse_decls]. *)
Record decls_state : Type := mkDecls {
ds_name : option string;
ds_possible_names : list (string * string);
ds_opts : list string;
ds_secondary_opts : list string
}.

(** One turn of the loop of [Option._parse_decls]. *)
Definition Option_parse_decl (st : decls_state) (decl : value)
: result decls_state :=
match decl with
| VStr d =>
    if isidentifier d then
      match ds_name st with
      | Some _ => Raise (TypeError (ClickTypeError "Name defined twice"))
      | None => Ok (mkDecls (Some d) (ds_possible_names st) (ds_opts st)
                            (ds_secondary_opts st))
      end
    else
      let split_char :=
        match d with String "/" _ => ";"%char | _ => "/"%char end in
      match split_once split_char d with
      | Some (first, second) =>
          let first := rstrip first in
          let second := lstrip second in
          Ok (mkDecls (ds_name st)
                (if nonempty first
                 then ds_possible_names st ++ [split_opt first]
                 else ds_possible_names st)%list
                (if nonempty first then ds_opts st ++ [first]
                 else ds_opts st)%list
                (if nonempty second
                 then ds_secondary_opts st ++ [lstrip second]
                 else ds_secondary_opts st)%list)
      | None =>
          Ok (mkDecls (ds_name st)
                (ds_possible_names st ++ [split_opt d])%list
                (ds_opts st ++ [d])%list
                (ds_secondary_opts st))
      end
| _ => Raise (AttributeError "isidentifier")
end.

Fixpoint Option_parse_loop (st : decls_state) (decls : list value)
: result decls_state :=
match decls with
| [] => Ok st
| decl :: rest =>
    st' <- Option_parse_decl st decl ;; Option_parse_loop st' rest
end.

(** The first element of [possible_names] after the stable sort by
  decreasing prefix length: the first one whose prefix is longest. *)
Fixpoint longest_prefix_first (best : string * string)
(l : list (string * string)) : string * string :=
match l with
| [] => best
| x :: rest =>
    if (String.length (fst best) <? String.length (fst x))%nat
    then longest_prefix_first x rest
    else longest_prefix_first best rest
end.

(** [Option._parse_decls(decls, expose_value=True)] *)
Definition Option_parse_decls (decls : list value)
: result (string * list string * list string) :=
st <- Option_parse_loop (mkDecls None [] [] []) decls ;;
let name :=
  match ds_name st, ds_possible_names st with
  | None, p :: ps =>
      let n := to_name (snd (longest_prefix_first p ps)) in
      if isidentifier n then Some n else None
  | n, _ => n
  end in
match name with
| None =>
    Raise (TypeError (ClickTypeError "Could not determine name for option"))
| Some n =>
    match ds_opts st, ds_secondary_opts st with
    | [], [] =>
        Raise (TypeError (ClickTypeError
                 ("No options defined but a name was passed (" ++ n
                  ++ "). Did you mean to declare an argument instead of "
                  ++ "an option?")))
    | _, _ => Ok (n, ds_opts st, ds_secondary_opts st)
    end
end.

(** [Argument._parse_decls(decls, expose_value=True)] *)
Definition Argument_parse_decls (decls : list value)
: result (string * list value * list string) :=
match decls with
| [] =>
    Raise (TypeError (ClickTypeError
             "Could not determine name for argument"))
| [arg] =>
    match arg with
    | VStr name => Ok (to_name name, [arg], [])
    | _ => Raise (AttributeError "replace")
    end
| _ =>
    Raise (TypeError (ClickTypeError
             "Arguments take exactly one parameter declaration"))
end.

(** click's parameter types that [convert_type] can return here. *)
Inductive ParamType : Type := STRING | INT | FLOAT | BOOL.

(** [convert_type(ty)] for one of the four primitive types. *)
Definition convert_type (ty : pytype) : ParamType :=
match ty with
| Tstr => STRING
| Tint => INT
| Tbool => BOOL
| Tfloat => FLOAT
end.

(** [convert_type(None, default)]: the type is guessed from the default,
  and a guessed [bool] is no [BOOL]. *)
Definition guess_type (default : value) : ParamType :=
match default with
| VInt _ => INT
| VFloat _ => FLOAT
| _ => STRING
end.

(** [bool(v)] *)
Definition truth (v : value) : bool :=
match v with
| VNone => false
| VBool b => b
| VInt z => negb (z =? 0)
| VFloat (FFinite m _) => negb (m =? 0)
| VFloat _ => true
| VStr s => nonempty s
| VList l => match l with [] => false | _ => true end
| VDict d => match d with [] => false | _ => true end
end.

(** A [click.Option] object: the attributes that the keyword arguments of
  the schema determine. *)
Record Option : Type := mkOption {
o_name : string;
o_opts : list string;
o_secondary_opts : list string;
o_type : ParamType;
o_required : bool;
o_default : value;
o_nargs : Z;
o_is_flag : bool;
o_flag_value : bool;
o_multiple : bool;
o_help : option string;
o_hidden : bool
}.

(** The keyword arguments of a call of [click.Option]: [None] where
  the keyword is not passed, and [kw_unexpected] the keywords that the
  signature does not have. *)
Record Option_kwargs : Type := mkOptionKw {
kw_param_decls : option (list value);
kw_is_flag : option bool;
kw_multiple : option bool;
kw_help : option string;
kw_hidden : option bool;
kw_required : option bool;
kw_default : option value;
kw_nargs : option Z;
kw_unexpected : list string
}.

Definition or_default {A} (o : option A) (d : A) : A :=
match o with Some a => a | None => d end.

(** [click.Option.__init__], with [type], [flag_value], [prompt], [count]
  and [hide_input] at the defaults of the signature. *)
Definition Option_init (kw : Option_kwargs) : result Option :=
match kw_unexpected kw with
| k :: _ => Raise (TypeError (UnexpectedKeyword k))
| [] =>
    (* Parameter.__init__ *)
    ' (name, opts, secondary_opts) <-
        Option_parse_decls (or_default (kw_param_decls kw) []) ;;
    let default := or_default (kw_default kw) VNone in
    let type := guess_type default in
    let nargs := or_default (kw_nargs kw) 1 in
    (* Flags *)
    let is_flag :=
      match kw_is_flag kw with
      | Some b => b
      | None => match secondary_opts with [] => false | _ => true end
      end in
    let default :=
      match kw_default kw with
      | None => if is_flag then VBool false else default
      | Some _ => default
      end in
    let flag_value := negb (truth default) in
    let is_bool_flag := is_flag in
    let type := if is_bool_flag then BOOL else type in
    (* Sanity check *)
    if nargs <? 0
    then Raise (TypeError (ClickTypeError "Options cannot have nargs < 0"))
    else if negb is_bool_flag
            && match secondary_opts with [] => false | _ => true end
    then Raise (TypeError (ClickTypeError
                  "Got secondary option for non boolean flag."))
    else Ok (mkOption name opts secondary_opts type
               (or_default (kw_required kw) false) default nargs
               is_flag flag_value (or_default (kw_multiple kw) false)
               (kw_help kw) (or_default (kw_hidden kw) false))
end.

(** A [click.Argument] object. *)
Record Argument : Type := mkArgument {
a_name : string;
a_opts : list value;
a_type : ParamType;
a_required : bool;
a_nargs : Z
}.

(** The keyword arguments of a call of [click.Argument]. *)
Record Argument_kwargs : Type := mkArgumentKw {
akw_param_decls : option (list value);
akw_type : option pytype;
akw_required : option bool;
akw_nargs : option Z
}.

(** [click.Argument.__init__]: [param_decls] has no default in the
  signature, and no [default] is passed. *)
Definition Argument_init (kw : Argument_kwargs) : result Argument :=
match akw_param_decls kw with
| None => Raise (TypeError (MissingArguments "Argument" ["param_decls"]))
| Some decls =>
    let required :=
      match akw_required kw with
      | Some b => b
      | None => 0 <? or_default (akw_nargs kw) 1
      end in
    ' (name, opts, _) <- Argument_parse_decls decls ;;
    Ok (mkArgument name opts
          (match akw_type kw with
           | Some ty => convert_type ty
           | None => STRING
           end)
          required (or_default (akw_nargs kw) 1))
end.

End Click.

(** ** The schemas and the dataclasses *)

(** The name of a keyword that a validated mapping does not hold. *)
Definition absent {A} (name : string) (o : option A) : list string :=
  match o with
  | None => [name]
  | Some _ => []
  end.

(** [fields.Nested(schema)]: the nested schema's [load]. *)
Definition Nested {D} (load : value -> result D) : Field D :=
  mkField false None None load.

(** [fields.List(inner)], and [fields.List(inner, missing=list)]. *)
Definition List_ {A} (inner : Field A) (missing : option (list A))
  : Field (list A) :=
  mkField false missing None (List_deserialize inner).

(** [fields.String()], [fields.Boolean()], [fields.Integer()] with no
    [missing]. *)
Definition String_ : Field string := mkField false None None String_deserialize.
Definition Boolean_ : Field bool := mkField false None None Boolean_deserialize.
Definition Integer_ : Field Z := mkField false None None Integer_deserialize.

(** [fields.String(missing=None)]: the value is a [str] or [None]. *)
Definition String_or_None : Field (option string) :=
  mkField false (Some None) (Some None)
          (fun v => s <- String_deserialize v ;; Ok (Some s)).

Module OptionSchema.

Definition param_decls : Field (list value) :=
  mkField false None None OptionNameField_deserialize.    (* data_key="name" *)
Definition typex : Field pytype :=
  mkField false None None (TypeField_deserialize None).
Definition is_flag : Field bool := Boolean_.              (* default=False *)
Definition help : Field string := String_.                (* default=None *)
Definition hidden : Field bool := Boolean_.               (* default=False *)
Definition required : Field bool := Boolean_.             (* default=False *)
Definition nargs : Field Z := Integer_.
Definition multiple : Field bool := Boolean_.
Definition default : Field value :=
  mkField false None None AnyField_deserialize.           (* default=None *)

(** The external keys of the declared fields. *)
Definition data_keys : list string :=
  ["name"; "typex"; "is_flag"; "help"; "hidden"; "required"; "nargs";
   "multiple"; "default"].

(** The mapping [validated]: a key per field that was loaded. *)
Record validated : Type := mkValidated {
  v_param_decls : option (list value);
  v_typex : option pytype;
  v_is_flag : option bool;
  v_help : option string;
  v_hidden : option bool;
  v_required : option bool;
  v_nargs : option Z;
  v_multiple : option bool;
  v_default : option value
}.

Definition fields_pass (data : dict) (st : error_store)
  : result (validated * error_store) :=
  ' (a1, st) <- load_field param_decls "name" data st ;;
  ' (a2, st) <- load_field typex "typex" data st ;;
  ' (a3, st) <- load_field is_flag "is_flag" data st ;;
  ' (a4, st) <- load_field help "help" data st ;;
  ' (a5, st) <- load_field hidden "hidden" data st ;;
  ' (a6, st) <- load_field required "required" data st ;;
  ' (a7, st) <- load_field nargs "nargs" data st ;;
  ' (a8, st) <- load_field multiple "multiple" data st ;;
  ' (a9, st) <- load_field default "default" data st ;;
  Ok (mkValidated a1 a2 a3 a4 a5 a6 a7 a8 a9, st).

(** The keyword arguments that [make_option] passes; [typex] is not
    a keyword of the signature. *)
Definition kwargs (v : validated) : Click.Option_kwargs :=
  Click.mkOptionKw (v_param_decls v) (v_is_flag v) (v_multiple v)
    (v_help v) (v_hidden v) (v_required v) (v_default v) (v_nargs v)
    (match v_typex v with
     | Some _ => ["typex"]
     | None => []
     end).

Definition make_option (v : validated) : result Click.Option :=
  Click.Option_init (kwargs v).

Definition load : value -> result Click.Option :=
  Schema_load data_keys fields_pass make_option.

End OptionSchema.

Module ArgumentSchema.

Definition param_decls : Field (list value) :=
  mkField false None None ArgumentNameField_deserialize.  (* data_key="name" *)
Definition type : Field pytype :=
  mkField false None None (TypeField_deserialize (Some Tstr)). (* default=str *)
Definition required : Field bool := Boolean_.             (* default=True *)
Definition nargs : Field Z := Integer_.                   (* default=None *)

Definition data_keys : list string := ["name"; "type"; "required"; "nargs"].

Record validated : Type := mkValidated {
  v_param_decls : option (list value);
  v_type : option pytype;
  v_required : option bool;
  v_nargs : option Z
}.

Definition fields_pass (data : dict) (st : error_store)
  : result (validated * error_store) :=
  ' (a1, st) <- load_field param_decls "name" data st ;;
  ' (a2, st) <- load_field type "type" data st ;;
  ' (a3, st) <- load_field required "required" data st ;;
  ' (a4, st) <- load_field nargs "nargs" data st ;;
  Ok (mkValidated a1 a2 a3 a4, st).

Definition make_argument (v : validated) : result Click.Argument :=
  Click.Argument_init
    (Click.mkArgumentKw (v_param_decls v) (v_type v) (v_required v)
                        (v_nargs v)).

Definition load : value -> result Click.Argument :=
  Schema_load data_keys fields_pass make_argument.

End ArgumentSchema.

Record RemapParam : Type := mkRemapParam {
  new : string;
  old : string
}.

Module RemapParamSchema.

Definition new : Field string := String_.
Definition old : Field string := String_.

Definition data_keys : list string := ["new"; "old"].

Record validated : Type := mkValidated {
  v_new : option string;
  v_old : option string
}.

Definition fields_pass (data : dict) (st : error_store)
  : result (validated * error_store) :=
  ' (a1, st) <- load_field new "new" data st ;;
  ' (a2, st) <- load_field old "old" data st ;;
  Ok (mkValidated a1 a2, st).

(** [make_remap]: the generated [__init__] has no default. *)
Definition make_remap (v : validated) : result RemapParam :=
  match v_new v, v_old v with
  | Some n, Some o => Ok (mkRemapParam n o)
  | _, _ =>
      Raise (TypeError (MissingArguments "RemapParam"
               (absent "new" (v_new v) ++ absent "old" (v_old v))%list))
  end.

Definition load : value -> result RemapParam :=
  Schema_load data_keys fields_pass make_remap.

End RemapParamSchema.

Record CommandStage : Type := mkCommandStage {
  command : string;
  remap_params : list RemapParam;
  params : dict
}.

Module CommandStageSchema.

Definition command : Field string := String_.
Definition remap_params : Field (list RemapParam) :=
  List_ (Nested RemapParamSchema.load) (Some []).          (* missing=list *)
Definition params : Field dict :=
  mkField false (Some []) None Dict_deserialize.           (* missing=dict *)

Definition data_keys : list string := ["command"; "remap_params"; "params"].

Record validated : Type := mkValidated {
  v_command : option string;
  v_remap_params : option (list RemapParam);
  v_params : option dict
}.

Definition fields_pass (data : dict) (st : error_store)
  : result (validated * error_store) :=
  ' (a1, st) <- load_field command "command" data st ;;
  ' (a2, st) <- load_field remap_params "remap_params" data st ;;
  ' (a3, st) <- load_field params "params" data st ;;
  Ok (mkValidated a1 a2 a3, st).

(** The call of [CommandStage] with the validated mapping. *)
Definition make (v : validated) : result CommandStage :=
  match v_command v, v_remap_params v, v_params v with
  | Some c, Some r, Some p => Ok (mkCommandStage c r p)
  | _, _, _ =>
      Raise (TypeError (MissingArguments "CommandStage"
               (absent "command" (v_command v)
                ++ absent "remap_params" (v_remap_params v)
                ++ absent "params" (v_params v))%list))
  end.

Definition load : value -> result CommandStage :=
  Schema_load data_keys fields_pass make.

End CommandStageSchema.

Record CommandTestSpec : Type := mkCommandTestSpec {
  invocation : list string;
  input : string;
  output : string
}.

Module CommandTestSpecSchema.

Definition invocation : Field (list string) := List_ String_ None.
Definition input : Field string := String_.
Definition output : Field string := String_.

Definition data_keys : list string := ["invocation"; "input"; "output"].

Record validated : Type := mkValidated {
  v_invocation : option (list string);
  v_input : option string;
  v_output : option string
}.

Definition fields_pass (data : dict) (st : error_store)
  : result (validated * error_store) :=
  ' (a1, st) <- load_field invocation "invocation" data st ;;
  ' (a2, st) <- load_field input "input" data st ;;
  ' (a3, st) <- load_field output "output" data st ;;
  Ok (mkValidated a1 a2 a3, st).

(** The call of [CommandTestSpec] with the validated mapping. *)
Definition make (v : validated) : result CommandTestSpec :=
  match v_invocation v, v_input v, v_output v with
  | Some i, Some n, Some o => Ok (mkCommandTestSpec i n o)
  | _, _, _ =>
      Raise (TypeError (MissingArguments "CommandTestSpec"
               (absent "invocation" (v_invocation v)
                ++ absent "input" (v_input v)
                ++ absent "output" (v_output v))%list))
  end.

Definition load : value -> result CommandTestSpec :=
  Schema_load data_keys fields_pass make.

End CommandTestSpecSchema.

Record CommandSpec : Type := mkCommandSpec {
  name : string;
  short_help : option string;
  help : option string;
  arguments : list Click.Argument;
  options : list Click.Option;
  stages : list CommandStage;
  inject_values : list string;
  test_specs : list CommandTestSpec;
  section : option string
}.

Module CommandSpecSchema.

Definition name : Field string := String_.
Definition help : Field (option string) := String_or_None.
Definition short_help : Field (option string) := String_or_None.
Definition arguments : Field (list Click.Argument) :=
  List_ (Nested ArgumentSchema.load) (Some []).            (* missing=list *)
Definition options : Field (list Click.Option) :=
  List_ (Nested OptionSchema.load) (Some []).              (* missing=list *)
Definition stages : Field (list CommandStage) :=
  List_ (Nested CommandStageSchema.load) None.             (* data_key="stage" *)
Definition inject_values : Field (list string) :=
  List_ String_ (Some []).                                 (* missing=list *)
Definition test_specs : Field (list CommandTestSpec) :=
  List_ (Nested CommandTestSpecSchema.load) (Some []).     (* data_key="test" *)
Definition section : Field (option string) := String_or_None.

Definition data_keys : list string :=
  ["name"; "help"; "short_help"; "arguments"; "options"; "stage";
   "inject_values"; "test"; "section"].

Record validated : Type := mkValidated {
  v_name : option string;
  v_help : option (option string);
  v_short_help : option (option string);
  v_arguments : option (list Click.Argument);
  v_options : option (list Click.Option);
  v_stages : option (list CommandStage);
  v_inject_values : option (list string);
  v_test_specs : option (list CommandTestSpec);
  v_section : option (option string)
}.

Definition fields_pass (data : dict) (st : error_store)
  : result (validated * error_store) :=
  ' (a1, st) <- load_field name "name" data st ;;
  ' (a2, st) <- load_field help "help" data st ;;
  ' (a3, st) <- load_field short_help "short_help" data st ;;
  ' (a4, st) <- load_field arguments "arguments" data st ;;
  ' (a5, st) <- load_field options "options" data st ;;
  ' (a6, st) <- load_field stages "stage" data st ;;
  ' (a7, st) <- load_field inject_values "inject_values" data st ;;
  ' (a8, st) <- load_field test_specs "test" data st ;;
  ' (a9, st) <- load_field section "section" data st ;;
  Ok (mkValidated a1 a2 a3 a4 a5 a6 a7 a8 a9, st).

(** The call of [CommandSpec]: the generated [__init__] takes the nine
    attributes in the order of the class body, none with a default. *)
Definition make (v : validated) : result CommandSpec :=
  match v_name v, v_short_help v, v_help v, v_arguments v, v_options v,
        v_stages v, v_inject_values v, v_test_specs v, v_section v with
  | Some n, Some sh, Some h, Some a, Some o, Some s, Some i, Some t, Some c =>
      Ok (mkCommandSpec n sh h a o s i t c)
  | _, _, _, _, _, _, _, _, _ =>
      Raise (TypeError (MissingArguments "CommandSpec"
               (absent "name" (v_name v)
                ++ absent "short_help" (v_short_help v)
                ++ absent "help" (v_help v)
                ++ absent "arguments" (v_arguments v)
                ++ absent "options" (v_options v)
                ++ absent "stages" (v_stages v)
                ++ absent "inject_values" (v_inject_values v)
                ++ absent "test_specs" (v_test_specs v)
                ++ absent "section" (v_section v))%list))
  end.

Definition load : value -> result CommandSpec :=
  Schema_load data_keys fields_pass make.

End CommandSpecSchema.

(** ** The six schemas, uniformly *)

Inductive schema : Type :=
| OptionS
| ArgumentS
| RemapParamS
| CommandStageS
| CommandTestSpecS
| CommandSpecS.

(** The domain object a schema's [post_load] hook builds. *)
Definition loaded (s : schema) : Type :=
  match s with
  | OptionS => Click.Option
  | ArgumentS => Click.Argument
  | RemapParamS => RemapParam
  | CommandStageS => CommandStage
  | CommandTestSpecS => CommandTestSpec
  | CommandSpecS => CommandSpec
  end.

Definition validated (s : schema) : Type :=
  match s with
  | OptionS => OptionSchema.validated
  | ArgumentS => ArgumentSchema.validated
  | RemapParamS => RemapParamSchema.validated
  | CommandStageS => CommandStageSchema.validated
  | CommandTestSpecS => CommandTestSpecSchema.validated
  | CommandSpecS => CommandSpecSchema.validated
  end.

Definition data_keys (s : schema) : list string :=
  match s with
  | OptionS => OptionSchema.data_keys
  | ArgumentS => ArgumentSchema.data_keys
  | RemapParamS => RemapParamSchema.data_keys
  | CommandStageS => CommandStageSchema.data_keys
  | CommandTestSpecS => CommandTestSpecSchema.data_keys
  | CommandSpecS => CommandSpecSchema.data_keys
  end.

Definition fields_pass (s : schema)
  : dict -> error_store -> result (validated s * error_store) :=
  match s with
  | OptionS => OptionSchema.fields_pass
  | ArgumentS => ArgumentSchema.fields_pass
  | RemapParamS => RemapParamSchema.fields_pass
  | CommandStageS => CommandStageSchema.fields_pass
  | CommandTestSpecS => CommandTestSpecSchema.fields_pass
  | CommandSpecS => CommandSpecSchema.fields_pass
  end.

Definition post_load (s : schema) : validated s -> result (loaded s) :=
  match s with
  | OptionS => OptionSchema.make_option
  | ArgumentS => ArgumentSchema.make_argument
  | RemapParamS => RemapParamSchema.make_remap
  | CommandStageS => CommandStageSchema.make
  | CommandTestSpecS => CommandTestSpecSchema.make
  | CommandSpecS => CommandSpecSchema.make
  end.

(** [schema().load(data)] *)
Definition load (s : schema) : value -> result (loaded s) :=
  Schema_load (data_keys s) (fields_pass s) (post_load s).

(** The exception that a field raises on the data, if it raises one. *)
Definition outcome {A} (f : Field A) (key : string) (d : dict) : option exn :=
  match deserialize f (dict_get d key) with
  | Ok _ => None
  | Raise e => Some e
  end.

(** The declared fields of a schema in the order of the class body, each
    with its external key and what it raises on the data. *)
Definition field_outcomes (s : schema) (d : dict)
  : list (string * option exn) :=
  match s with
  | OptionS =>
      [("name", outcome OptionSchema.param_decls "name" d);
       ("typex", outcome OptionSchema.typex "typex" d);
       ("is_flag", outcome OptionSchema.is_flag "is_flag" d);
       ("help", outcome OptionSchema.help "help" d);
       ("hidden", outcome OptionSchema.hidden "hidden" d);
       ("required", outcome OptionSchema.required "required" d);
       ("nargs", outcome OptionSchema.nargs "nargs" d);
       ("multiple", outcome OptionSchema.multiple "multiple" d);
       ("default", outcome OptionSchema.default "default" d)]
  | ArgumentS =>
      [("name", outcome ArgumentSchema.param_decls "name" d);
       ("type", outcome ArgumentSchema.type "type" d);
       ("required", outcome ArgumentSchema.required "required" d);
       ("nargs", outcome ArgumentSchema.nargs "nargs" d)]
  | RemapParamS =>
      [("new", outcome RemapParamSchema.new "new" d);
       ("old", outcome RemapParamSchema.old "old" d)]
  | CommandStageS =>
      [("command", outcome CommandStageSchema.command "command" d);
       ("remap_params",
        outcome CommandStageSchema.remap_params "remap_params" d);
       ("params", outcome CommandStageSchema.params "params" d)]
  | CommandTestSpecS =>
      [("invocation", outcome CommandTestSpecSchema.invocation "invocation" d);
       ("input", outcome CommandTestSpecSchema.input "input" d);
       ("output", outcome CommandTestSpecSchema.output "output" d)]
  | CommandSpecS =>
      [("name", outcome CommandSpecSchema.name "name" d);
       ("help", outcome CommandSpecSchema.help "help" d);
       ("short_help", outcome CommandSpecSchema.short_help "short_help" d);
       ("arguments", outcome CommandSpecSchema.arguments "arguments" d);
       ("options", outcome CommandSpecSchema.options "options" d);
       ("stage", outcome CommandSpecSchema.stages "stage" d);
       ("inject_values",
        outcome CommandSpecSchema.inject_values "inject_values" d);
       ("test", outcome CommandSpecSchema.test_specs "test" d);
       ("section", outcome CommandSpecSchema.section "section" d)]
  end.

(** The entries that the validation errors among the outcomes make in an
    error mapping. *)
Fixpoint validation_errors (l : list (string * option exn)) : error_store :=
  match l with
  | [] => []
  | (k, Some (ValidationError m)) :: rest =>
      (KField k, m) :: validation_errors rest
  | _ :: rest => validation_errors rest
  end.

(** The entries of the keys of the data that no field declares. *)
Definition unknown_errors (s : schema) (d : dict) : error_store :=
  map (fun k => (KField k, Messages ["Unknown field."]))
      (unknown_keys (data_keys s) [] (dict_keys d)).

(** No field raises anything but a [ValidationError]. *)
Definition only_validation_errors (l : list (string * option exn)) : Prop :=
  forall k e, In (k, Some e) l -> exists m, e = ValidationError m.

(** The error mapping has an entry under the external key [key]. *)
Definition names_field (m : errors) (key : string) : Prop :=
  match m with
  | Mapping d => In (KField key) (map fst d)
  | Messages _ => False
  end.

(** What the constructor called by [post_load] raises when the keyword that
    the field under the external key [key] would fill is not passed. *)
Definition constructor_error (s : schema) (key : string) (why : type_error)
  : Prop :=
  match s with
  | OptionS =>
      why = UnexpectedKeyword "typex"
      \/ why = ClickTypeError "Could not determine name for option"
  | ArgumentS => why = MissingArguments "Argument" ["param_decls"]
  | RemapParamS =>
      exists names, why = MissingArguments "RemapParam" names /\ In key names
  | CommandStageS =>
      exists names, why = MissingArguments "CommandStage" names /\ In key names
  | CommandTestSpecS =>
      exists names,
        why = MissingArguments "CommandTestSpec" names /\ In key names
  | CommandSpecS =>
      exists names,
        why = MissingArguments "CommandSpec" names
        /\ In (if String.eqb key "stage" then "stages" else key) names
  end.

(** The external keys whose fields fill a keyword that the constructor
    called by [post_load] cannot do without. *)
Definition needed_keys (s : schema) : list string :=
  match s with
  | OptionS => ["name"]
  | ArgumentS => ["name"]
  | RemapParamS => ["new"; "old"]
  | CommandStageS => ["command"]
  | CommandTestSpecS => ["invocation"; "input"; "output"]
  | CommandSpecS => ["name"; "stage"]
  end.

(** The schema whose objects a list field of [s] nests, by the field's
    external key. *)
Definition nested_in (s : schema) (key : string) : option schema :=
  match s with
  | CommandSpecS =>
      if String.eqb key "arguments" then Some ArgumentS
      else if String.eqb key "options" then Some OptionS
      else if String.eqb key "stage" then Some CommandStageS
      else if String.eqb key "test" then Some CommandTestSpecS
      else None
  | CommandStageS =>
      if String.eqb key "remap_params" then Some RemapParamS else None
  | _ => None
  end.

(** ** Stage resolution *)

Module StageResolver.

(** Modelled from the spec: the stage resolver (section 4.6), which the
    source does not hold: only the [CommandStage] dataclass it works on is
    declared there.  A base command's parameter has a canonical name and a
    default. *)
Record Param : Type := mkParam {
  p_name : string;
  p_default : value
}.

(** Modelled from the spec: the external command registry of step 1, a
    mapping from the command's name to its parameters. *)
Definition registry := list (string * list Param).

Fixpoint lookup_command (reg : registry) (cmd : string)
  : option (list Param) :=
  match reg with
  | [] => None
  | (n, ps) :: rest =>
      if String.eqb n cmd then Some ps else lookup_command rest cmd
  end.

(** Modelled from the spec: the failures of stage resolution.  The third
    is the validation error that section 9 asks for where a name is
    ambiguous; it holds the name. *)
Inductive resolve_error : Type :=
| UnknownCommandError (cmd : string)
| UnknownParameterError (param : string)
| AmbiguousParameterError (name : string).

(** Modelled from the spec: step 2, the rename map [old -> new] built
    from [remap_params] entry by entry (a later entry for the same [old]
    replaces an earlier one). *)
Fixpoint rename_map (remaps : list RemapParam) (acc : list (string * string))
  : list (string * string) :=
  match remaps with
  | [] => acc
  | r :: rest =>
      rename_map rest
        ((old r, new r)
         :: filter (fun kv => negb (String.eqb (fst kv) (old r))) acc)
  end.

Fixpoint rename (m : list (string * string)) (canonical : string) : string :=
  match m with
  | [] => canonical
  | (o, n) :: rest =>
      if String.eqb o canonical then n else rename rest canonical
  end.

(** Modelled from the spec: step 2, the stage-local name of every base
    parameter, with its default. *)
Definition stage_local (stage : CommandStage) (base : list Param)
  : list (string * value) :=
  map (fun p => (rename (rename_map (remap_params stage) []) (p_name p),
                 p_default p))
      base.

(** Modelled from the spec: step 3, the first key of [params] that is no
    stage-local name. *)
Definition unknown_param (local : list (string * value)) (overrides : dict)
  : option string :=
  option_map fst
    (find (fun kv => negb (mem_string (fst kv) (map fst local))) overrides).

(** The first element of a list that occurs in it again. *)
Fixpoint first_duplicate (l : list string) : option string :=
  match l with
  | [] => None
  | x :: rest => if mem_string x rest then Some x else first_duplicate rest
  end.

(** Modelled from the spec: sections 3 and 9, a key of [params] that is
    both a name from before the remap and a name from after it: the
    canonical name of a base parameter, and the [new] that a remap gives to
    another base parameter. *)
Definition ambiguous_key (stage : CommandStage) (base : list Param)
  (k : string) : bool :=
  mem_string k (map p_name base)
  && existsb (fun r => String.eqb (new r) k
                       && negb (String.eqb (old r) k)
                       && mem_string (old r) (map p_name base))
             (remap_params stage).

(** Modelled from the spec: sections 3 and 9, the collisions that are to
    be detected and rejected: two remaps with one [new], two remaps with one
    [old], a key of [params] that is ambiguous.  The value is the name that
    collides. *)
Definition collision (stage : CommandStage) (base : list Param)
  : option string :=
  match first_duplicate (map new (remap_params stage)) with
  | Some n => Some n
  | None =>
      match first_duplicate (map old (remap_params stage)) with
      | Some o => Some o
      | None => find (ambiguous_key stage base) (dict_keys (params stage))
      end
  end.

(** Modelled from the spec: step 3, every override put in place of the
    default of the parameter it names. *)
Definition substitute (local : list (string * value)) (overrides : dict)
  : list (string * value) :=
  map (fun kv => (fst kv,
                  match dict_get overrides (fst kv) with
                  | Some v => v
                  | None => snd kv
                  end))
      local.

(** Modelled from the spec: steps 1 to 3 of stage resolution, with the
    rejection of collisions.  The spec fixes no order between the two
    rejections; a key of [params] that is no stage-local name is reported
    first, as step 3 says of every such key. *)
Definition resolve (reg : registry) (stage : CommandStage)
  : resolve_error + list (string * value) :=
  match lookup_command reg (command stage) with
  | None => inl (UnknownCommandError (command stage))
  | Some base =>
      let local := stage_local stage base in
      match unknown_param local (params stage) with
      | Some k => inl (UnknownParameterError k)
      | None =>
          match collision stage base with
          | Some k => inl (AmbiguousParameterError k)
          | None => inr (substitute local (params stage))
          end
      end
  end.



End StageResolver.

(** ** Concrete configurations *)

(** A command with one stage and nothing else, and what it loads to. *)
Definition one_stage_config : dict :=
  [("name", VStr "x"); ("stage", VList [VDict [("command", VStr "map")]])].

Definition one_stage_spec : CommandSpec :=
  mkCommandSpec "x" None None [] [] [mkCommandStage "map" [] []] [] [] None.

(** A command whose name and help are no strings, whose stage has no valid
    command, and which holds a key that no field declares. *)
Definition broken_config : dict :=
  [("name", VInt 1); ("help", VInt 2);
   ("stage", VList [VDict [("command", VInt 2)]]); ("zzz", VNone)].

(** A command with neither name nor stage, and a help that is no string. *)
Definition nameless_config : dict := [("help", VInt 3)].

(** An option with an unrecognized type name and a flag that is no
    boolean. *)
Definition bogus_type_config : dict :=
  [("name", VStr "--x"); ("typex", VStr "bogus"); ("is_flag", VStr "maybe")].

(** An option with an unrecognized type name and a key that no field
    declares. *)
Definition bogus_type_unknown_key_config : dict :=
  [("name", VStr "--x"); ("typex", VStr "bogus"); ("zzz", VInt 1)].

(** A remap with a key that no field declares. *)
Definition remap_unknown_key_config : dict :=
  [("new", VStr "x"); ("old", VStr "a"); ("zzz", VInt 1)].

(** The base command of the spec's examples, with parameters a and b, and a
    stage that renames a to x and overrides both. *)
Definition example_registry : StageResolver.registry :=
  [("cmd", [StageResolver.mkParam "a" VNone; StageResolver.mkParam "b" VNone])].

Definition example_stage : CommandStage :=
  mkCommandStage "cmd" [mkRemapParam "x" "a"]
                 [("x", VStr "1"); ("b", VStr "2")].

(** ** What a load can raise *)

(** An error of click's parsing of the declarations: a [TypeError] with
    one of click's messages, or the [AttributeError] of a declaration that
    is no string. *)
Definition click_error (e : exn) : Prop :=
  (exists msg, e = TypeError (ClickTypeError msg))
  \/ (exists msg, e = AttributeError msg).

(** The schemas that build a click parameter, or nest one that does. *)
Definition has_parameters (s : schema) : bool :=
  match s with
  | OptionS | ArgumentS | CommandSpecS => true
  | _ => false
  end.

(** The schemas that hold the type field without a default, or nest the
    one that does. *)
Definition has_typex (s : schema) : bool :=
  match s with
  | OptionS | CommandSpecS => true
  | _ => false
  end.

(** The classes whose constructor a load of the schema calls without a
    default for every keyword. *)
Definition raising_classes (s : schema) : list string :=
  match s with
  | OptionS => []
  | ArgumentS => ["Argument"]
  | RemapParamS => ["RemapParam"]
  | CommandStageS => ["CommandStage"; "RemapParam"]
  | CommandTestSpecS => ["CommandTestSpec"]
  | CommandSpecS =>
      ["CommandSpec"; "Argument"; "CommandStage"; "RemapParam";
       "CommandTestSpec"]
  end.

(** The exceptions that a load of the schema lets out. *)
Definition can_raise (s : schema) (e : exn) : Prop :=
  match e with
  | ValidationError _ => True
  | KeyError _ => has_typex s = true
  | TypeError (MissingArguments cls _) => In cls (raising_classes s)
  | TypeError (UnexpectedKeyword k) => k = "typex" /\ has_typex s = true
  | TypeError Unhashable => has_parameters s = true
  | TypeError (ClickTypeError _) => has_parameters s = true
  | AttributeError _ => has_parameters s = true
  end.

(** The fields declared with [missing=None], the only ones that take
    [None] for a value. *)
Definition nullable (s : schema) (key : string) : bool :=
  match s with
  | CommandSpecS => mem_string key ["help"; "short_help"; "section"]
  | _ => false
  end.

(** The keys of the data that no field declares, when no key occurs twice. *)
Definition undeclared (s : schema) (keys : list string) : list string :=
  filter (fun k => negb (mem_string k (data_keys s))) keys.

(** A value that the type field without a default answers with a
    [KeyError]: hashable, and no key of [TYPES]. *)
Definition unknown_type_name (v : value) : Prop :=
  v <> VNone /\ TypeField_deserialize None v = Raise (KeyError v).

(** What a list field of nested objects makes of the value under its key:
    nothing is the empty list of the field's [missing]; a list is loaded
    object by object, in order; anything else does not load. *)
Definition loaded_list {D} (raw : option value) (ld : value -> result D)
  (objs : list D) : Prop :=
  match raw with
  | None => objs = []
  | Some (VList l) => Forall2 (fun x o => ld x = Ok o) l objs
  | Some _ => False
  end.

(** No declared field raises anything on the data. *)
Definition no_field_raises (s : schema) (d : dict) : Prop :=
  forall k e, ~ In (k, Some e) (field_outcomes s d).

(** ** Further configurations *)

(** A command whose name is no string and whose only stage has no
    command. *)
Definition commandless_stage_config : dict :=
  [("name", VInt 1); ("stage", VList [VDict []])].

(** A stage whose params hold a number. *)
Definition numeric_params_config : dict :=
  [("command", VStr "map"); ("params", VDict [("n", VInt 3)])].

Definition numeric_params_stage : CommandStage :=
  mkCommandStage "map" [] [("n", VInt 3)].

(** A test of two invocation words. *)
Definition test_config : dict :=
  [("invocation", VList [VStr "map"; VStr "x"]); ("input", VStr "a");
   ("output", VStr "b")].

Definition test_spec : CommandTestSpec :=
  mkCommandTestSpec ["map"; "x"] "a" "b".

(** A remap of a to x. *)
Definition remap_config : dict := [("new", VStr "x"); ("old", VStr "a")].

(** An argument with an unrecognized type name. *)
Definition bogus_argument_config : dict :=
  [("name", VStr "my-arg"); ("type", VStr "bogus")].

(** An option whose help is None, and one whose name is a number. *)
Definition null_help_config : dict := [("name", VStr "--x"); ("help", VNone)].

Definition numeric_name_config : dict := [("name", VInt 5); ("hidden", VInt 7)].

(** The one-stage command with its keys in the other order. *)
Definition one_stage_config_reversed : dict :=
  [("stage", VList [VDict [("command", VStr "map")]]); ("name", VStr "x")].

(** ** Configurations and the objects they describe *)






(** A stage that renames a to b where the base command has a b of its
    own, and overrides b. *)
Definition colliding_stage : CommandStage :=
  mkCommandStage "cmd" [mkRemapParam "b" "a"] [("b", VStr "1")].

(** * Properties *)

(** ** The machinery of a load *)

Lemma store_unknown_app (keys : list string) (d : dict) (st : error_store) :
  store_unknown keys d st
  = (st ++ map (fun k => (KField k, Messages ["Unknown field."]))
               (unknown_keys keys [] (dict_keys d)))%list.
Proof.
  unfold store_unknown.
  generalize (unknown_keys keys [] (dict_keys d)) as l.
  intros l; revert st.
  induction l as [|k l IH]; intros st; simpl.
  - now rewrite app_nil_r.
  - rewrite IH. unfold store_error. now rewrite <- app_assoc.
Qed.

Lemma load_field_store {A} (f : Field A) k d st a st' :
  load_field f k d st = Ok (a, st') ->
  st' = (st ++ validation_errors [(k, outcome f k d)])%list.
Proof.
  unfold load_field, outcome.
  destruct (deserialize f (dict_get d k)) as [x|[m|key|why|msg]];
    simpl; intros H; inversion H; subst; auto using app_nil_r.
  now rewrite app_nil_r.
Qed.

Lemma load_field_raise {A} (f : Field A) k d st e :
  load_field f k d st = Raise e ->
  outcome f k d = Some e /\ forall m, e <> ValidationError m.
Proof.
  unfold load_field, outcome.
  destruct (deserialize f (dict_get d k)) as [x|[m|key|why|msg]];
    intros H; inversion H; subst; split; auto; discriminate.
Qed.

Lemma load_field_total {A} (f : Field A) k d st :
  (forall e, outcome f k d = Some e -> exists m, e = ValidationError m) ->
  exists a,
    load_field f k d st
    = Ok (a, (st ++ validation_errors [(k, outcome f k d)])%list).
Proof.
  unfold load_field, outcome.
  destruct (deserialize f (dict_get d k)) as [x|e]; intros H.
  - exists x. simpl. now rewrite app_nil_r.
  - destruct (H e eq_refl) as [m ->]. now exists None.
Qed.

(** A field that is absent from the data loads to its [missing] value
    without an error, unless it is required. *)
Lemma load_field_absent {A} (f : Field A) k d st :
  dict_get d k = None -> f_required f = false ->
  load_field f k d st = Ok (f_missing f, st).
Proof.
  intros Hk Hr. unfold load_field, deserialize. now rewrite Hk, Hr.
Qed.

(** Where a loaded field's value comes from. *)
Lemma load_field_value {A} (f : Field A) k d st a st' :
  load_field f k d st = Ok (Some a, st') ->
  match dict_get d k with
  | Some raw => deserialize_present f raw = Ok a
  | None => f_missing f = Some a
  end.
Proof.
  unfold load_field, deserialize.
  destruct (dict_get d k) as [raw|].
  - unfold bind. destruct (deserialize_present f raw) as [x|[m|key|why|msg]];
      intros H; inversion H; subst; reflexivity.
  - destruct (f_required f); intros H; inversion H; subst; reflexivity.
Qed.

Lemma Schema_load_Ok {V D} keys
  (fp : dict -> error_store -> result (V * error_store))
  (post : V -> result D) data x :
  Schema_load keys fp post data = Ok x ->
  exists d v,
    data = VDict d /\ fp d [] = Ok (v, [])
    /\ unknown_keys keys [] (dict_keys d) = [] /\ post v = Ok x.
Proof.
  destruct data as [| | | | |l|d]; simpl; try discriminate.
  unfold bind. destruct (fp d []) as [[v st]|e] eqn:E; try discriminate.
  rewrite store_unknown_app.
  destruct st as [|p st]; simpl.
  - destruct (unknown_keys keys [] (dict_keys d)) eqn:U; simpl;
      try discriminate.
    intros H. now exists d, v.
  - discriminate.
Qed.

Lemma Schema_load_errors {V D} keys
  (fp : dict -> error_store -> result (V * error_store))
  (post : V -> result D) d v st :
  fp d [] = Ok (v, st) ->
  Schema_load keys fp post (VDict d)
  = match store_unknown keys d st with
    | [] => post v
    | errs => Raise (ValidationError (Mapping errs))
    end.
Proof. intros E. simpl. now rewrite E. Qed.

(** One turn of the field loop, read off an equation. *)
Ltac step H :=
  match type of H with
  | context [match load_field ?f ?k ?d ?st with _ => _ end] =>
      let a := fresh "a" in
      let s := fresh "st" in
      let E := fresh "E" in
      destruct (load_field f k d st) as [[a s]|] eqn:E;
      [ | discriminate H ]
  end.

Ltac open_pass H :=
  cbv beta iota delta
    [fields_pass OptionSchema.fields_pass ArgumentSchema.fields_pass
       RemapParamSchema.fields_pass CommandStageSchema.fields_pass
       CommandTestSpecSchema.fields_pass CommandSpecSchema.fields_pass bind]
    in H;
  repeat step H.

Lemma validation_errors_cons x y l :
  validation_errors (x :: y :: l)
  = (validation_errors [x] ++ validation_errors (y :: l))%list.
Proof. destruct x as [k [[m|key|why|msg]|]]; reflexivity. Qed.

(** The field loop stores the validation errors of the fields, in the
    order of the declarations, and nothing else. *)
Lemma fields_pass_store (s : schema) d v st :
  fields_pass s d [] = Ok (v, st) ->
  st = validation_errors (field_outcomes s d).
Proof.
  intros H. destruct s; open_pass H; inversion H; subst; clear H;
    repeat match goal with
           | E : load_field _ _ _ _ = Ok _ |- _ =>
               apply load_field_store in E
           end;
    subst; unfold field_outcomes;
    rewrite !validation_errors_cons, <- ?app_assoc; reflexivity.
Qed.

Ltac close_store :=
  unfold field_outcomes;
  rewrite !validation_errors_cons, <- ?app_assoc; reflexivity.

(** When no field raises anything but validation errors, the field loop
    runs to its end. *)
Lemma fields_pass_total (s : schema) d :
  only_validation_errors (field_outcomes s d) ->
  exists v,
    fields_pass s d [] = Ok (v, validation_errors (field_outcomes s d)).
Proof.
  intros H.
  destruct s;
    cbv beta iota delta
      [fields_pass OptionSchema.fields_pass ArgumentSchema.fields_pass
         RemapParamSchema.fields_pass CommandStageSchema.fields_pass
         CommandTestSpecSchema.fields_pass CommandSpecSchema.fields_pass bind];
    repeat match goal with
           | |- context [load_field ?f ?k d ?st] =>
               let a := fresh "a" in
               let E := fresh "E" in
               destruct (load_field_total f k d st) as [a E];
               [ intros e He; apply (H k e); rewrite <- He;
                 unfold field_outcomes; simpl; tauto
               | rewrite E; cbv beta iota; clear E ]
           end;
    eexists; do 2 f_equal; symmetry; close_store.
Qed.

(** An exception that leaves the field loop is no validation error, and is
    what one of the fields raised. *)
Lemma fields_pass_raise (s : schema) d e :
  fields_pass s d [] = Raise e ->
  (forall m, e <> ValidationError m)
  /\ exists k, In (k, Some e) (field_outcomes s d).
Proof.
  intros H.
  destruct s;
    cbv beta iota delta
      [fields_pass OptionSchema.fields_pass ArgumentSchema.fields_pass
         RemapParamSchema.fields_pass CommandStageSchema.fields_pass
         CommandTestSpecSchema.fields_pass CommandSpecSchema.fields_pass bind]
      in H;
    repeat match type of H with
           | context [match load_field ?f ?k ?d ?st with _ => _ end] =>
               let a := fresh "a" in
               let st' := fresh "st" in
               let E := fresh "E" in
               destruct (load_field f k d st) as [[a st']|] eqn:E;
               [ clear E
               | inversion H; subst; apply load_field_raise in E;
                 destruct E as [E1 E2]; split;
                 [ exact E2
                 | exists k; rewrite <- E1; unfold field_outcomes; simpl;
                   tauto ] ]
           end;
    discriminate H.
Qed.

Lemma mem_string_In (k : string) (l : list string) :
  mem_string k l = true <-> In k l.
Proof.
  unfold mem_string. rewrite existsb_exists. split.
  - intros [x [Hx E]]. apply String.eqb_eq in E. now subst.
  - intros H. exists k. split; auto. apply String.eqb_refl.
Qed.

Lemma unknown_keys_In (fields seen keys : list string) (k : string) :
  In k (unknown_keys fields seen keys)
  <-> In k keys /\ ~ In k fields /\ ~ In k seen.
Proof.
  revert seen. induction keys as [|x keys IH]; intros seen; simpl.
  - tauto.
  - destruct (mem_string x fields) eqn:F; simpl.
    + apply mem_string_In in F. rewrite IH.
      split; [tauto|]. intros [[->|H] [H1 H2]]; tauto.
    + assert (Hf : ~ In x fields)
        by (rewrite <- mem_string_In, F; discriminate).
      destruct (mem_string x seen) eqn:S.
      * apply mem_string_In in S. rewrite IH.
        split; [tauto|]. intros [[->|H] [H1 H2]]; tauto.
      * assert (Hs : ~ In x seen)
          by (rewrite <- mem_string_In, S; discriminate).
        simpl. rewrite IH. simpl.
        destruct (string_dec x k) as [->|Hn]; tauto.
Qed.

Lemma dict_get_In (d : dict) (k : string) :
  dict_get d k <> None <-> In k (dict_keys d).
Proof.
  induction d as [|[k' v] d IH]; simpl.
  - tauto.
  - destruct (String.eqb_spec k' k) as [->|Hn].
    + split; [auto | discriminate].
    + rewrite IH. tauto.
Qed.

Lemma validation_errors_In l k m :
  In (KField k, m) (validation_errors l)
  <-> In (k, Some (ValidationError m)) l.
Proof.
  induction l as [|[k' [[m'|key|why|msg]|]] l IH]; simpl;
    try (rewrite IH; split; [tauto | intros [H|H]; [discriminate H | tauto]]).
  - tauto.
  - rewrite IH. split; intros [H|H]; try tauto; inversion H; subst; auto.
Qed.

(** A field raises nothing on data that does not hold its key: no field of
    the module is required. *)
Lemma field_outcomes_present (s : schema) d k e :
  In (k, Some e) (field_outcomes s d) -> dict_get d k <> None.
Proof.
  destruct s; unfold field_outcomes; simpl In; intros H;
    repeat (destruct H as [H|H]; [ | ]);
    try contradiction;
    inversion H; subst; clear H;
    match goal with
    | E : outcome ?f ?key d = Some e |- _ =>
        unfold outcome, deserialize in E;
        destruct (dict_get d key); [discriminate | simpl in E; discriminate]
    end.
Qed.

(** ** Lists of nested objects *)

Lemma List_items_raise {A} (inner : value -> result A) n l e :
  List_items inner n l = Raise e -> forall m, e <> ValidationError m.
Proof.
  revert n. induction l as [|x l IH]; intros n; simpl; [discriminate|].
  destruct (inner x) as [a|[m'|key|why|msg]]; unfold bind;
    try (intros H; inversion H; subst; discriminate);
    destruct (List_items inner (S n) l) as [[r errs]|e'] eqn:E;
    try discriminate;
    intros H; inversion H; subst; eapply IH; eauto.
Qed.

Lemma List_items_index {A} (inner : value -> result A) l :
  forall n r errs i x m,
    List_items inner n l = Ok (r, errs) ->
    nth_error l i = Some x -> inner x = Raise (ValidationError m) ->
    In (KIndex (n + i), m) errs.
Proof.
  induction l as [|y l IH]; intros n r errs i x m H Hi Hx.
  - destruct i; discriminate.
  - simpl in H. destruct i as [|i]; simpl in Hi.
    + inversion Hi; subst. rewrite Hx in H. unfold bind in H.
      destruct (List_items inner (S n) l) as [[r' errs']|]; try discriminate.
      inversion H; subst. rewrite Nat.add_0_r. now left.
    + unfold bind in H.
      destruct (inner y) as [a|[m'|key|why|msg]]; try discriminate;
        destruct (List_items inner (S n) l) as [[r' errs']|] eqn:E;
        try discriminate; inversion H; subst;
        replace (n + S i)%nat with (S n + i)%nat by lia;
        [ | right ]; eapply IH; eauto.
Qed.

(** What a list field of nested objects raises when the nested load of one
    element raises a validation error. *)
Lemma nested_outcome {D} (ld : value -> result D) ms key d l i dx m :
  dict_get d key = Some (VList l) ->
  nth_error l i = Some (VDict dx) ->
  ld (VDict dx) = Raise (ValidationError m) ->
  exists e,
    outcome (List_ (Nested ld) ms) key d = Some e
    /\ ((exists nested,
           e = ValidationError (Mapping nested) /\ In (KIndex i, m) nested)
        \/ forall m', e <> ValidationError m').
Proof.
  intros Hk Hi Hx. unfold outcome, deserialize. rewrite Hk.
  simpl. unfold bind.
  destruct (List_items (deserialize_present (Nested ld)) 0 l)
    as [[r errs]|e] eqn:E.
  - assert (Hin : In (KIndex (0 + i), m) errs)
      by (eapply List_items_index; eauto).
    destruct errs as [|p errs]; [contradiction|].
    eexists; split; [reflexivity|]. left. eexists; split; [reflexivity|].
    exact Hin.
  - exists e. split; [reflexivity|]. right.
    eapply List_items_raise; eauto.
Qed.

Ltac nested_case ld ms Hk Hi Hx :=
  let e := fresh "e" in
  let He := fresh "He" in
  let Hc := fresh "Hc" in
  destruct (nested_outcome ld ms _ _ _ _ _ _ Hk Hi Hx) as [e [He Hc]];
  exists e; split;
  [ rewrite <- He; unfold field_outcomes; simpl; tauto | exact Hc ].

Lemma nested_in_outcome (s s' : schema) key d l i dx m :
  nested_in s key = Some s' ->
  dict_get d key = Some (VList l) ->
  nth_error l i = Some (VDict dx) ->
  load s' (VDict dx) = Raise (ValidationError m) ->
  exists e,
    In (key, Some e) (field_outcomes s d)
    /\ ((exists nested,
           e = ValidationError (Mapping nested) /\ In (KIndex i, m) nested)
        \/ forall m', e <> ValidationError m').
Proof.
  intros Hn Hk Hi Hx.
  destruct s; simpl in Hn; try discriminate;
    repeat match type of Hn with
           | (if String.eqb key ?c then _ else _) = _ =>
               destruct (String.eqb_spec key c) as [->|?]
           end;
    try discriminate; inversion Hn; subst.
  - nested_case RemapParamSchema.load (Some (@nil RemapParam)) Hk Hi Hx.
  - nested_case ArgumentSchema.load (Some (@nil Click.Argument)) Hk Hi Hx.
  - nested_case OptionSchema.load (Some (@nil Click.Option)) Hk Hi Hx.
  - nested_case CommandStageSchema.load (@None (list CommandStage)) Hk Hi Hx.
  - nested_case CommandTestSpecSchema.load (Some (@nil CommandTestSpec))
      Hk Hi Hx.
Qed.

(** ** Collected errors, unknown keys *)

Lemma load_Ok (s : schema) data x :
  load s data = Ok x ->
  exists d v,
    data = VDict d /\ fields_pass s d [] = Ok (v, [])
    /\ unknown_keys (data_keys s) [] (dict_keys d) = []
    /\ post_load s v = Ok x.
Proof. unfold load. apply Schema_load_Ok. Qed.

Lemma load_collects (s : schema) (d : dict) :
  only_validation_errors (field_outcomes s d) ->
  exists v,
    fields_pass s d [] = Ok (v, validation_errors (field_outcomes s d))
    /\ load s (VDict d)
       = match (validation_errors (field_outcomes s d)
                ++ unknown_errors s d)%list with
         | [] => post_load s v
         | errs => Raise (ValidationError (Mapping errs))
         end.
Proof.
  intros H. destruct (fields_pass_total s d H) as [v E].
  exists v. split; [exact E|].
  unfold load. rewrite (Schema_load_errors _ _ _ _ _ _ E).
  now rewrite store_unknown_app.
Qed.

(** C2 (as amended).  Within one schema, the validation errors of all the
    fields and the unknown keys are collected before the load fails: when no
    field raises an exception of another kind, the load raises one
    [ValidationError] whose mapping holds, under the external key of each
    field whose validator failed, that field's messages, and an entry for
    each unknown key; the validation error of a nested object is found under
    the key of the nesting list field and the index of the object. *)
Theorem validation_errors_collected (s : schema) (d : dict) :
  only_validation_errors (field_outcomes s d) ->
  let errs :=
    (validation_errors (field_outcomes s d) ++ unknown_errors s d)%list in
  (errs <> [] -> load s (VDict d) = Raise (ValidationError (Mapping errs)))
  /\ (forall k m,
        In (k, Some (ValidationError m)) (field_outcomes s d) ->
        In (KField k, m) errs)
  /\ (forall key s' l i dx m,
        nested_in s key = Some s' ->
        dict_get d key = Some (VList l) ->
        nth_error l i = Some (VDict dx) ->
        load s' (VDict dx) = Raise (ValidationError m) ->
        exists nested,
          In (KField key, Mapping nested) errs /\ In (KIndex i, m) nested).
Proof.
  intros H errs. split; [|split].
  - intros Hne. destruct (load_collects s d H) as [v [_ E]].
    rewrite E. fold errs. destruct errs; [contradiction|reflexivity].
  - intros k m Hin. apply in_or_app. left.
    now apply validation_errors_In.
  - intros key s' l i dx m Hn Hk Hi Hx.
    destruct (nested_in_outcome s s' key d l i dx m Hn Hk Hi Hx)
      as [e [Hin [[nested [-> Hm]]|Hno]]].
    + exists nested. split; [|exact Hm].
      apply in_or_app. left. now apply validation_errors_In.
    + destruct (H key e Hin) as [m' ->]. now elim (Hno m').
Qed.

(** C10 (as amended).  A key of the data that is no external key of a
    declared field is never ignored: the load does not return; when no field
    raises an exception of another kind, it raises a [ValidationError] with
    the unknown-field message under that key; and an exception of another
    kind, being raised in the field loop, is the one that the load raises. *)
Theorem unknown_key_rejected (s : schema) (d : dict) (k : string) :
  In k (dict_keys d) -> ~ In k (data_keys s) ->
  (forall x, load s (VDict d) <> Ok x)
  /\ (only_validation_errors (field_outcomes s d) ->
      exists errs,
        load s (VDict d) = Raise (ValidationError (Mapping errs))
        /\ In (KField k, Messages ["Unknown field."]) errs)
  /\ (forall e, fields_pass s d [] = Raise e -> load s (VDict d) = Raise e).
Proof.
  intros Hk Hn.
  assert (Hu : In k (unknown_keys (data_keys s) [] (dict_keys d)))
    by (apply unknown_keys_In; simpl; tauto).
  split; [|split].
  - intros x Hx. apply load_Ok in Hx.
    destruct Hx as [d' [v [Hd [_ [U _]]]]]. inversion Hd; subst d'.
    rewrite U in Hu. contradiction.
  - intros H. destruct (load_collects s d H) as [v [_ E]].
    assert (Hin : In (KField k, Messages ["Unknown field."])
                     (validation_errors (field_outcomes s d)
                      ++ unknown_errors s d)%list).
    { apply in_or_app. right. unfold unknown_errors.
      apply (in_map (fun k => (KField k, Messages ["Unknown field."]))).
      exact Hu. }
    destruct (validation_errors (field_outcomes s d) ++ unknown_errors s d)%list
      as [|p errs] eqn:Eq; [contradiction|].
    exists (p :: errs). split; [exact E | exact Hin].
  - intros e E. unfold load. simpl. now rewrite E.
Qed.

(** ** Absent fields *)

Ltac absent_fields d Hk :=
  repeat match goal with
         | E : load_field ?f ?k d ?st = Ok (?a, ?st') |- _ =>
             first [ rewrite (load_field_absent f k d st Hk eq_refl) in E;
                     inversion E; subst; clear E
                   | clear E ]
         end.

(** The constructor that [post_load] calls fails when a keyword it cannot
    do without is absent from the data. *)
Lemma absent_not_built (s : schema) (key : string) d v st :
  In key (needed_keys s) -> dict_get d key = None ->
  fields_pass s d [] = Ok (v, st) ->
  exists why,
    post_load s v = Raise (TypeError why) /\ constructor_error s key why.
Proof.
  intros Hin Hk H.
  destruct s; simpl in Hin;
    repeat (destruct Hin as [Hin|Hin]; [subst key| ]); try contradiction;
    open_pass H; inversion H; subst v st; clear H;
    absent_fields d Hk; simpl;
    repeat match goal with
           | a : option _ |- _ => destruct a
           end;
    simpl;
    try (eexists; split; [reflexivity|];
         first [ eexists; split; [reflexivity|]; simpl; tauto
               | reflexivity
               | left; reflexivity
               | right; reflexivity ]).
Qed.

(** C1 (as amended).  When the data lacks a key whose field fills a keyword
    that the constructor of the domain object needs (CommandSpec's name or
    stage, an Option's or Argument's name, a stage's command, a remap's new
    or old, a test's invocation, input or output), the load fails; no field
    of the module being required, a [ValidationError] that the load raises
    never has an entry under the absent key; and when the other keys load
    without error the load raises the [TypeError] of the constructor. *)
Theorem absent_needed_field (s : schema) (key : string) (d : dict) :
  In key (needed_keys s) -> dict_get d key = None ->
  (forall x, load s (VDict d) <> Ok x)
  /\ (forall m,
        load s (VDict d) = Raise (ValidationError m) -> ~ names_field m key)
  /\ (forall v,
        fields_pass s d [] = Ok (v, []) -> unknown_errors s d = [] ->
        exists why,
          load s (VDict d) = Raise (TypeError why)
          /\ constructor_error s key why).
Proof.
  intros Hin Hk. split; [|split].
  - intros x Hx. apply load_Ok in Hx.
    destruct Hx as [d' [v [Hd [E [_ P]]]]]. inversion Hd; subst d'.
    destruct (absent_not_built s key d v [] Hin Hk E) as [why [Hw _]].
    rewrite Hw in P. discriminate.
  - intros m Hm Hnames.
    destruct (fields_pass s d []) as [[v st]|e] eqn:E.
    + unfold load in Hm. rewrite (Schema_load_errors _ _ _ _ _ _ E) in Hm.
      rewrite store_unknown_app in Hm.
      pose proof (fields_pass_store s d v st E) as Hst.
      destruct (absent_not_built s key d v st Hin Hk E) as [why [Hw _]].
      remember (st ++ map (fun k => (KField k, Messages ["Unknown field."]))
                       (unknown_keys (data_keys s) [] (dict_keys d)))%list
        as errs eqn:Eq.
      destruct errs as [|p errs].
      * rewrite Hw in Hm. discriminate.
      * inversion Hm; subst m. unfold names_field in Hnames.
        rewrite Eq in Hnames.
        apply in_map_iff in Hnames. destruct Hnames as [[k' e'] [Hf Hi]].
        simpl in Hf. subst k'. apply in_app_or in Hi. destruct Hi as [Hi|Hi].
        -- rewrite Hst in Hi. apply validation_errors_In in Hi.
           apply field_outcomes_present in Hi. contradiction.
        -- apply in_map_iff in Hi. destruct Hi as [k' [Hf Hi]].
           inversion Hf; subst k'. apply unknown_keys_In in Hi.
           destruct Hi as [Hi _]. apply dict_get_In in Hi. contradiction.
    + unfold load in Hm. simpl in Hm. rewrite E in Hm. simpl in Hm.
      inversion Hm; subst e.
      destruct (fields_pass_raise s d _ E) as [Hno _]. now elim (Hno m).
  - intros v E U.
    destruct (absent_not_built s key d v [] Hin Hk E) as [why [Hw Hc]].
    exists why. split; [|exact Hc].
    unfold load. rewrite (Schema_load_errors _ _ _ _ _ _ E).
    rewrite store_unknown_app. simpl.
    unfold unknown_errors in U. rewrite U. exact Hw.
Qed.

(** ** What the constructors are given *)

Ltac some_or_fail :=
  repeat match goal with
         | |- context [match ?a with Some _ => _ | None => _ end] =>
             is_var a; destruct a; [ | now intros ]
         end.

Lemma CommandSpec_make_Ok v spec :
  CommandSpecSchema.make v = Ok spec ->
  v = CommandSpecSchema.mkValidated
        (Some (name spec)) (Some (help spec)) (Some (short_help spec))
        (Some (arguments spec)) (Some (options spec)) (Some (stages spec))
        (Some (inject_values spec)) (Some (test_specs spec))
        (Some (section spec)).
Proof.
  destruct v as [a1 a2 a3 a4 a5 a6 a7 a8 a9].
  unfold CommandSpecSchema.make; simpl.
  some_or_fail. intros H; inversion H; subst; reflexivity.
Qed.

Lemma CommandStage_make_Ok v stage :
  CommandStageSchema.make v = Ok stage ->
  v = CommandStageSchema.mkValidated
        (Some (command stage)) (Some (remap_params stage))
        (Some (params stage)).
Proof.
  destruct v as [a1 a2 a3].
  unfold CommandStageSchema.make; simpl.
  some_or_fail. intros H; inversion H; subst; reflexivity.
Qed.

Ltac absent_default :=
  match goal with
  | E : load_field ?f ?k ?d ?st = Ok _, Hk : dict_get ?d ?k = None |- _ =>
      rewrite (load_field_absent f k d st Hk eq_refl) in E;
      simpl in E; congruence
  end.

(** C6.  After a load, every optional field that the configuration leaves
    out has its default: for a CommandSpec the empty list for arguments,
    options, inject_values and test_specs (read from the key test) and None
    for help, short_help and section; for a stage the empty list for
    remap_params and the empty mapping for params. *)
Theorem absent_optional_defaults :
  (forall (d : dict) (spec : CommandSpec),
      CommandSpecSchema.load (VDict d) = Ok spec ->
      (dict_get d "arguments" = None -> arguments spec = [])
      /\ (dict_get d "options" = None -> options spec = [])
      /\ (dict_get d "inject_values" = None -> inject_values spec = [])
      /\ (dict_get d "test" = None -> test_specs spec = [])
      /\ (dict_get d "help" = None -> help spec = None)
      /\ (dict_get d "short_help" = None -> short_help spec = None)
      /\ (dict_get d "section" = None -> section spec = None))
  /\ (forall (d : dict) (stage : CommandStage),
         CommandStageSchema.load (VDict d) = Ok stage ->
         (dict_get d "remap_params" = None -> remap_params stage = [])
         /\ (dict_get d "params" = None -> params stage = [])).
Proof.
  split.
  - intros d spec H. apply (load_Ok CommandSpecS) in H.
    destruct H as [d' [v [Hd [E [_ P]]]]]. inversion Hd; subst d'.
    apply CommandSpec_make_Ok in P. subst v.
    open_pass E. inversion E; subst; clear E.
    repeat split; intros Hk; absent_default.
  - intros d stage H. apply (load_Ok CommandStageS) in H.
    destruct H as [d' [v [Hd [E [_ P]]]]]. inversion Hd; subst d'.
    apply CommandStage_make_Ok in P. subst v.
    open_pass E. inversion E; subst; clear E.
    repeat split; intros Hk; absent_default.
Qed.

Lemma not_unknown (keys : list string) (d : dict) (k : string) :
  unknown_keys keys [] (dict_keys d) = [] -> ~ In k keys ->
  dict_get d k = None.
Proof.
  intros U Hn. destruct (dict_get d k) eqn:E; [|reflexivity].
  assert (H : In k (unknown_keys keys [] (dict_keys d))).
  { apply unknown_keys_In. split; [|simpl; tauto].
    apply dict_get_In. rewrite E. discriminate. }
  rewrite U in H. contradiction.
Qed.

Ltac not_declared :=
  simpl; intros H;
  repeat (destruct H as [H|H]; [discriminate H| ]); exact H.


Lemma OptionNameField_wraps (v : value) :
  OptionNameField_deserialize v = Ok [v].
Proof. reflexivity. Qed.


(** ** Type names and parameter names *)

Lemma TYPES_get_name (t : pytype) : TYPES_get TYPES (type_name t) = Some t.
Proof. destruct t; reflexivity. Qed.

Lemma TYPES_get_other (n : string) :
  (forall t, n <> type_name t) -> TYPES_get TYPES n = None.
Proof.
  intros H. cbv beta iota delta [TYPES TYPES_get map type_name].
  destruct (String.eqb_spec "int" n) as [E|_]; [now elim (H Tint)|].
  destruct (String.eqb_spec "str" n) as [E|_]; [now elim (H Tstr)|].
  destruct (String.eqb_spec "bool" n) as [E|_]; [now elim (H Tbool)|].
  destruct (String.eqb_spec "float" n) as [E|_]; [now elim (H Tfloat)|].
  reflexivity.
Qed.

Ltac type_field_through :=
  unfold deserialize, deserialize_present, ArgumentSchema.type,
    OptionSchema.typex;
  cbn [f_deserialize f_none f_required f_missing].

(** C3.  The type field resolves each of the names int, str, bool and float
    to its type, whatever the field's default.  Any other name resolves to
    the default of a field that has one, and the argument schema's type
    field, whose default is str, gives str; on a field without a default,
    as the option schema's typex, the lookup's KeyError (the unknown-type
    error) is raised. *)
Theorem type_field_resolves (n : string) :
  (forall t, n = type_name t ->
     (forall default, TypeField_deserialize default (VStr n) = Ok t)
     /\ deserialize ArgumentSchema.type (Some (VStr n)) = Ok (Some t)
     /\ deserialize OptionSchema.typex (Some (VStr n)) = Ok (Some t))
  /\ ((forall t, n <> type_name t) ->
      (forall d, TypeField_deserialize (Some d) (VStr n) = Ok d)
      /\ TypeField_deserialize None (VStr n) = Raise (KeyError (VStr n))
      /\ deserialize ArgumentSchema.type (Some (VStr n)) = Ok (Some Tstr)
      /\ deserialize OptionSchema.typex (Some (VStr n))
         = Raise (KeyError (VStr n))).
Proof.
  split.
  - intros t ->.
    assert (H : forall default,
               TypeField_deserialize default (VStr (type_name t)) = Ok t)
      by (intros default; unfold TypeField_deserialize;
          now rewrite TYPES_get_name).
    split; [exact H|].
    split; type_field_through; now rewrite H.
  - intros Hn. pose proof (TYPES_get_other n Hn) as E.
    assert (H1 : forall d, TypeField_deserialize (Some d) (VStr n) = Ok d)
      by (intros d; unfold TypeField_deserialize; now rewrite E).
    assert (H2 : TypeField_deserialize None (VStr n)
                 = Raise (KeyError (VStr n)))
      by (unfold TypeField_deserialize; now rewrite E).
    split; [exact H1|]. split; [exact H2|].
    split; type_field_through; [now rewrite H1 | now rewrite H2].
Qed.

(** C4.  Every raw string, with or without a leading dash, passes the
    option name field and the argument name field and comes back as the
    one-element list that holds it: the prefix check of the option name
    field stands after the return and never runs. *)
Theorem name_fields_wrap (s : string) :
  OptionNameField_deserialize (VStr s) = Ok [VStr s]
  /\ ArgumentNameField_deserialize (VStr s) = Ok [VStr s]
  /\ deserialize OptionSchema.param_decls (Some (VStr s))
     = Ok (Some [VStr s])
  /\ deserialize ArgumentSchema.param_decls (Some (VStr s))
     = Ok (Some [VStr s]).
Proof. repeat split. Qed.

(** C5.  The configuration that holds only the option name --x, under the
    external key name, loads through the option schema, and the option it
    yields is no flag, is not hidden, is not required and has no default;
    the validated mapping holds no key but param_decls. *)
Theorem option_name_only :
  exists o,
    OptionSchema.load (VDict [("name", VStr "--x")]) = Ok o
    /\ Click.o_is_flag o = false
    /\ Click.o_hidden o = false
    /\ Click.o_required o = false
    /\ Click.o_default o = VNone
    /\ OptionSchema.fields_pass [("name", VStr "--x")] []
       = Ok (OptionSchema.mkValidated (Some [VStr "--x"]) None None None None
               None None None None, []).
Proof. eexists. repeat split. Qed.

(** ** Concrete configurations *)

(** C1, counterexample.  A CommandSpec configuration without the stage key
    does not fail with a ValidationError: the load raises the TypeError of
    the CommandSpec constructor; and an option configuration without a type
    loads. *)
Lemma missing_stage_is_no_validation_error :
  CommandSpecSchema.load (VDict [("name", VStr "x")])
  = Raise (TypeError (MissingArguments "CommandSpec" ["stages"]))
  /\ (forall m,
        CommandSpecSchema.load (VDict [("name", VStr "x")])
        <> Raise (ValidationError m))
  /\ exists o, OptionSchema.load (VDict [("name", VStr "--x")]) = Ok o.
Proof.
  split; [reflexivity|]. split; [discriminate|].
  eexists. reflexivity.
Qed.

Lemma absent_needed_field_witness :
  In "stage" (needed_keys CommandSpecS)
  /\ dict_get [("name", VStr "x")] "stage" = None
  /\ (forall x, load CommandSpecS (VDict [("name", VStr "x")]) <> Ok x)
  /\ forall m,
       load CommandSpecS (VDict [("name", VStr "x")])
       = Raise (ValidationError m) ->
       ~ names_field m "stage".
Proof.
  assert (Hin : In "stage" (needed_keys CommandSpecS)) by (simpl; auto).
  assert (Hk : dict_get [("name", VStr "x")] "stage" = None) by reflexivity.
  split; [exact Hin|]. split; [exact Hk|].
  destruct (absent_needed_field CommandSpecS "stage" [("name", VStr "x")]
              Hin Hk) as [H1 [H2 _]].
  split; [exact H1 | exact H2].
Defined.

(** C2, counterexample.  Two fields of an option configuration are invalid,
    the type name for the lookup and the flag for the boolean field; the
    load raises the KeyError of the first and no ValidationError that
    carries both.  And a command configuration that lacks name and stage and
    has an invalid help fails with the error of help alone: the missing
    fields are not among the collected errors. *)
Lemma unknown_type_is_not_collected :
  outcome OptionSchema.typex "typex" bogus_type_config
  = Some (KeyError (VStr "bogus"))
  /\ outcome OptionSchema.is_flag "is_flag" bogus_type_config
     = Some (ValidationError (Messages ["Not a valid boolean."]))
  /\ OptionSchema.load (VDict bogus_type_config)
     = Raise (KeyError (VStr "bogus"))
  /\ (forall m,
        OptionSchema.load (VDict bogus_type_config)
        <> Raise (ValidationError m))
  /\ CommandSpecSchema.load (VDict nameless_config)
     = Raise (ValidationError
                (Mapping [(KField "help", Messages ["Not a valid string."])])).
Proof.
  repeat split. discriminate.
Qed.

Lemma validation_errors_collected_witness :
  only_validation_errors (field_outcomes CommandSpecS broken_config)
  /\ load CommandSpecS (VDict broken_config)
     = Raise (ValidationError (Mapping
         [(KField "name", Messages ["Not a valid string."]);
          (KField "help", Messages ["Not a valid string."]);
          (KField "stage",
           Mapping [(KIndex 0,
                     Mapping [(KField "command",
                               Messages ["Not a valid string."])])]);
          (KField "zzz", Messages ["Unknown field."])])).
Proof.
  assert (H : only_validation_errors (field_outcomes CommandSpecS broken_config)).
  { intros k e Hin. vm_compute in Hin.
    repeat (destruct Hin as [Hin|Hin]; [inversion Hin; eauto| ]).
    contradiction. }
  split; [exact H|].
  destruct (validation_errors_collected CommandSpecS broken_config H)
    as [H1 _].
  apply H1. vm_compute. discriminate.
Defined.

Lemma type_field_resolves_witness :
  (forall t, "bogus" <> type_name t)
  /\ deserialize ArgumentSchema.type (Some (VStr "bogus")) = Ok (Some Tstr)
  /\ deserialize OptionSchema.typex (Some (VStr "bogus"))
     = Raise (KeyError (VStr "bogus")).
Proof.
  assert (H : forall t, "bogus" <> type_name t)
    by (intros t; destruct t; simpl; discriminate).
  split; [exact H|].
  destruct (proj2 (type_field_resolves "bogus") H) as [_ [_ [H3 H4]]].
  split; [exact H3 | exact H4].
Defined.

Lemma absent_optional_defaults_witness :
  CommandSpecSchema.load (VDict one_stage_config) = Ok one_stage_spec
  /\ arguments one_stage_spec = [] /\ help one_stage_spec = None.
Proof.
  assert (H : CommandSpecSchema.load (VDict one_stage_config)
              = Ok one_stage_spec) by reflexivity.
  split; [exact H|].
  destruct (proj1 absent_optional_defaults one_stage_config one_stage_spec H)
    as [H1 [_ [_ [_ [H5 _]]]]].
  split; [apply H1 | apply H5]; reflexivity.
Defined.

(** C10, counterexample.  An option configuration with the unknown key zzz
    and an unrecognized type name does not fail with a validation error:
    the KeyError of the type field leaves the field loop before the unknown
    keys are looked at. *)
Lemma unknown_key_behind_key_error :
  In "zzz" (dict_keys bogus_type_unknown_key_config)
  /\ ~ In "zzz" (data_keys OptionS)
  /\ OptionSchema.load (VDict bogus_type_unknown_key_config)
     = Raise (KeyError (VStr "bogus"))
  /\ forall m,
       OptionSchema.load (VDict bogus_type_unknown_key_config)
       <> Raise (ValidationError m).
Proof.
  split; [simpl; auto|]. split.
  - simpl. intros H.
    repeat (destruct H as [H|H]; [discriminate H| ]). exact H.
  - split; [reflexivity|discriminate].
Qed.

Lemma unknown_key_rejected_witness :
  In "zzz" (dict_keys remap_unknown_key_config)
  /\ ~ In "zzz" (data_keys RemapParamS)
  /\ (forall x, load RemapParamS (VDict remap_unknown_key_config) <> Ok x)
  /\ exists errs,
       load RemapParamS (VDict remap_unknown_key_config)
       = Raise (ValidationError (Mapping errs))
       /\ In (KField "zzz", Messages ["Unknown field."]) errs.
Proof.
  pose (d := remap_unknown_key_config).
  assert (Hk : In "zzz" (dict_keys d)) by (simpl; auto).
  assert (Hn : ~ In "zzz" (data_keys RemapParamS)).
  { simpl. intros H.
    repeat (destruct H as [H|H]; [discriminate H| ]). exact H. }
  split; [exact Hk|]. split; [exact Hn|].
  destruct (unknown_key_rejected RemapParamS d "zzz" Hk Hn) as [H1 [H2 _]].
  split; [exact H1|]. apply H2.
  intros k e Hin. vm_compute in Hin.
  repeat (destruct Hin as [Hin|Hin]; [inversion Hin; eauto| ]).
  contradiction.
Defined.

(** * Further properties *)

(** ** Where an exception comes from *)

Lemma outcome_inv {A} (f : Field A) key d e :
  f_required f = false ->
  outcome f key d = Some e ->
  (exists m, e = ValidationError m)
  \/ exists raw,
       dict_get d key = Some raw /\ raw <> VNone
       /\ f_deserialize f raw = Raise e.
Proof.
  intros Hr. unfold outcome, deserialize. rewrite Hr.
  destruct (dict_get d key) as [raw|]; [|discriminate].
  unfold bind, deserialize_present.
  destruct raw; try (destruct (f_deserialize f _) eqn:E; [discriminate|];
                     intros H; inversion H; subst; right;
                     eexists; split; [reflexivity|]; split;
                     [discriminate|eassumption]).
  destruct (f_none f); [discriminate|].
  intros H; inversion H; subst. left. eauto.
Qed.

Lemma String_raise v e :
  String_deserialize v = Raise e -> exists m, e = ValidationError m.
Proof. destruct v; simpl; intros H; inversion H; eauto. Qed.

Lemma String_or_None_raise v e :
  f_deserialize String_or_None v = Raise e -> exists m, e = ValidationError m.
Proof.
  simpl. unfold bind. destruct (String_deserialize v) eqn:E; [discriminate|].
  intros H; inversion H; subst. eapply String_raise; eauto.
Qed.

Lemma Boolean_raise v e :
  Boolean_deserialize v = Raise e -> exists m, e = ValidationError m.
Proof.
  unfold Boolean_deserialize.
  destruct (in_truthy v); [discriminate|].
  destruct (in_falsy v); [discriminate|].
  intros H; inversion H; eauto.
Qed.

Lemma Integer_raise v e :
  Integer_deserialize v = Raise e -> exists m, e = ValidationError m.
Proof.
  unfold Integer_deserialize.
  destruct v as [| | |[| |]| | |]; try (intros H; inversion H; eauto; fail).
  destruct (int_of_str s); intros H; inversion H; eauto.
Qed.

Lemma Dict_raise v e :
  Dict_deserialize v = Raise e -> exists m, e = ValidationError m.
Proof. destruct v; simpl; intros H; inversion H; eauto. Qed.

Lemma TypeField_raise default v e :
  TypeField_deserialize default v = Raise e ->
  e = TypeError Unhashable \/ (default = None /\ e = KeyError v).
Proof.
  unfold TypeField_deserialize.
  destruct v; try destruct (TYPES_get TYPES s); destruct default;
    intros H; inversion H; auto.
Qed.

Lemma List_items_raise_elem {A} (inner : value -> result A) l :
  forall n e,
    List_items inner n l = Raise e ->
    exists i x, nth_error l i = Some x /\ inner x = Raise e.
Proof.
  induction l as [|y l IH]; intros n e; simpl; [discriminate|].
  destruct (inner y) as [a|[m|k|w|msg]] eqn:E; unfold bind;
    try (intros H; inversion H; subst; exists 0%nat, y; now split);
    destruct (List_items inner (S n) l) as [[r errs]|e'] eqn:El;
    try discriminate;
    intros H; inversion H; subst;
    destruct (IH _ _ El) as [i [x [Hi Hx]]];
    exists (S i), x; now split.
Qed.

Lemma List_raise {A} (inner : Field A) v e :
  List_deserialize inner v = Raise e ->
  (exists m, e = ValidationError m)
  \/ exists l i x,
       v = VList l /\ nth_error l i = Some x
       /\ deserialize_present inner x = Raise e.
Proof.
  destruct v; simpl; try (intros H; inversion H; eauto; fail).
  unfold bind.
  destruct (List_items (deserialize_present inner) 0 l) as [[r errs]|e']
    eqn:E.
  - destruct errs; intros H; inversion H; eauto.
  - intros H; inversion H; subst.
    destruct (List_items_raise_elem _ _ _ _ E) as [i [x [Hi Hx]]].
    right. exists l, i, x. auto.
Qed.

Lemma Nested_raise {D} (ld : value -> result D) x e :
  deserialize_present (Nested ld) x = Raise e ->
  (exists m, e = ValidationError m) \/ ld x = Raise e.
Proof.
  unfold deserialize_present. simpl.
  destruct x; auto. intros H; inversion H; eauto.
Qed.

Lemma Schema_load_raise {V D} keys
  (fp : dict -> error_store -> result (V * error_store))
  (post : V -> result D) data e :
  Schema_load keys fp post data = Raise e ->
  (exists m, e = ValidationError m)
  \/ (exists d, data = VDict d /\ fp d [] = Raise e)
  \/ (exists d v, data = VDict d /\ fp d [] = Ok (v, [])
                  /\ unknown_keys keys [] (dict_keys d) = []
                  /\ post v = Raise e).
Proof.
  destruct data as [| | | | |l|d]; simpl;
    try (intros H; inversion H; eauto; fail).
  unfold bind. destruct (fp d []) as [[v st]|e'] eqn:E.
  - rewrite store_unknown_app.
    destruct st as [|p st]; simpl.
    + destruct (unknown_keys keys [] (dict_keys d)) eqn:U; simpl.
      * intros H. right. right. exists d, v. auto.
      * intros H; inversion H; eauto.
    + intros H; inversion H; eauto.
  - intros H; inversion H; subst. right. left. eauto.
Qed.

(** ** click's constructors *)

Lemma Option_parse_decl_raise st decl e :
  Click.Option_parse_decl st decl = Raise e -> click_error e.
Proof.
  unfold Click.Option_parse_decl, click_error.
  destruct decl; try (intros H; inversion H; eauto; fail).
  destruct (Click.isidentifier s).
  - destruct (Click.ds_name st); intros H; inversion H; eauto.
  - destruct (Click.split_once _ s) as [[a b]|]; discriminate.
Qed.

Lemma Option_parse_loop_raise decls :
  forall st e, Click.Option_parse_loop st decls = Raise e -> click_error e.
Proof.
  induction decls as [|x decls IH]; intros st e; simpl; [discriminate|].
  unfold bind. destruct (Click.Option_parse_decl st x) as [st'|e'] eqn:E.
  - apply IH.
  - intros H; inversion H; subst. eapply Option_parse_decl_raise; eauto.
Qed.

Lemma Option_parse_decls_raise decls e :
  Click.Option_parse_decls decls = Raise e -> click_error e.
Proof.
  unfold Click.Option_parse_decls, bind.
  destruct (Click.Option_parse_loop _ decls) as [st|e'] eqn:E.
  - match goal with
    | |- match ?n with _ => _ end = _ -> _ => destruct n
    end.
    + destruct (Click.ds_opts st), (Click.ds_secondary_opts st);
        intros H; inversion H; unfold click_error; eauto.
    + intros H; inversion H; unfold click_error; eauto.
  - intros H; inversion H; subst. eapply Option_parse_loop_raise; eauto.
Qed.

Lemma Option_init_raise kw e :
  Click.Option_init kw = Raise e ->
  click_error e
  \/ exists k, e = TypeError (UnexpectedKeyword k)
               /\ In k (Click.kw_unexpected kw).
Proof.
  unfold Click.Option_init.
  destruct (Click.kw_unexpected kw) as [|k ks].
  - unfold bind.
    destruct (Click.Option_parse_decls _) as [[[n op] se]|e'] eqn:E.
    + repeat match goal with
             | |- context [if ?c then Raise _ else _] =>
                 destruct c;
                 [intros H; inversion H; left; unfold click_error; eauto|]
             end.
      discriminate.
    + intros H; inversion H; subst. left.
      eapply Option_parse_decls_raise; eauto.
  - intros H; inversion H. right. exists k. simpl. auto.
Qed.

Lemma Argument_init_raise kw e :
  Click.Argument_init kw = Raise e ->
  click_error e \/ e = TypeError (MissingArguments "Argument" ["param_decls"]).
Proof.
  unfold Click.Argument_init.
  destruct (Click.akw_param_decls kw) as [decls|];
    [|intros H; inversion H; auto].
  unfold bind, Click.Argument_parse_decls.
  destruct decls as [|a [|b rest]];
    try (intros H; inversion H; left; unfold click_error; eauto; fail).
  destruct a; intros H; inversion H; left; unfold click_error; eauto.
Qed.

(** What a [post_load] hook raises is what its constructor raises. *)
Lemma post_load_raise (s : schema) v e :
  post_load s v = Raise e ->
  match s with
  | OptionS => click_error e \/ e = TypeError (UnexpectedKeyword "typex")
  | ArgumentS =>
      click_error e
      \/ e = TypeError (MissingArguments "Argument" ["param_decls"])
  | RemapParamS =>
      exists names, e = TypeError (MissingArguments "RemapParam" names)
  | CommandStageS =>
      exists names, e = TypeError (MissingArguments "CommandStage" names)
  | CommandTestSpecS =>
      exists names, e = TypeError (MissingArguments "CommandTestSpec" names)
  | CommandSpecS =>
      exists names, e = TypeError (MissingArguments "CommandSpec" names)
  end.
Proof.
  destruct s; simpl.
  - unfold OptionSchema.make_option. intros H.
    apply Option_init_raise in H. destruct H as [H|[k [-> Hk]]]; auto.
    right. unfold OptionSchema.kwargs in Hk. simpl in Hk.
    destruct (OptionSchema.v_typex v); simpl in Hk; [|contradiction].
    destruct Hk as [<-|[]]. reflexivity.
  - unfold ArgumentSchema.make_argument. apply Argument_init_raise.
  - destruct v as [a1 a2]; unfold RemapParamSchema.make_remap; simpl.
    destruct a1, a2; intros H; inversion H; eauto.
  - destruct v as [a1 a2 a3]; unfold CommandStageSchema.make; simpl.
    destruct a1, a2, a3; intros H; inversion H; eauto.
  - destruct v as [a1 a2 a3]; unfold CommandTestSpecSchema.make; simpl.
    destruct a1, a2, a3; intros H; inversion H; eauto.
  - destruct v as [a1 a2 a3 a4 a5 a6 a7 a8 a9];
      unfold CommandSpecSchema.make; simpl.
    destruct a1, a2, a3, a4, a5, a6, a7, a8, a9;
      intros H; inversion H; eauto.
Qed.

Lemma post_load_not_validation (s : schema) v m :
  post_load s v <> Raise (ValidationError m).
Proof.
  intros H. apply post_load_raise in H.
  destruct s; unfold click_error in H;
    repeat match goal with
           | H : _ \/ _ |- _ => destruct H as [H|H]
           | H : exists _, _ |- _ => destruct H as [? H]
           end;
    discriminate.
Qed.

(** ** The exceptions of a load *)

Lemma present_raise {A} (f : Field A) x e :
  deserialize_present f x = Raise e ->
  (exists m, e = ValidationError m) \/ f_deserialize f x = Raise e.
Proof.
  unfold deserialize_present.
  destruct x; auto. destruct (f_none f); intros H; inversion H; eauto.
Qed.

Lemma load_raise_inv (s : schema) v e :
  load s v = Raise e ->
  (exists m, e = ValidationError m)
  \/ (exists d key,
        v = VDict d /\ In (key, Some e) (field_outcomes s d)
        /\ forall m, e <> ValidationError m)
  \/ (exists d v',
        v = VDict d /\ fields_pass s d [] = Ok (v', [])
        /\ unknown_keys (data_keys s) [] (dict_keys d) = []
        /\ post_load s v' = Raise e).
Proof.
  intros H. unfold load in H. apply Schema_load_raise in H.
  destruct H as [H|[[d [Hd H]]|[d [v' [Hd H]]]]]; auto.
  - right. left. destruct (fields_pass_raise s d e H) as [Hn [key Hk]].
    exists d, key. auto.
  - right. right. exists d, v'. auto.
Qed.

Ltac unfold_fields H :=
  unfold OptionSchema.param_decls, OptionSchema.typex, OptionSchema.is_flag,
    OptionSchema.help, OptionSchema.hidden, OptionSchema.required,
    OptionSchema.nargs, OptionSchema.multiple, OptionSchema.default,
    ArgumentSchema.param_decls, ArgumentSchema.type, ArgumentSchema.required,
    ArgumentSchema.nargs, RemapParamSchema.new, RemapParamSchema.old,
    CommandStageSchema.command, CommandStageSchema.remap_params,
    CommandStageSchema.params, CommandTestSpecSchema.invocation,
    CommandTestSpecSchema.input, CommandTestSpecSchema.output,
    CommandSpecSchema.name, CommandSpecSchema.help,
    CommandSpecSchema.short_help, CommandSpecSchema.arguments,
    CommandSpecSchema.options, CommandSpecSchema.stages,
    CommandSpecSchema.inject_values, CommandSpecSchema.test_specs,
    CommandSpecSchema.section, String_, Boolean_, Integer_, List_ in H;
  cbn [f_deserialize f_none f_required f_missing] in H.

(** The fields of a schema, one at a time: what is left is a field whose
    deserializer raised [e] on the value [raw] under its key. *)
Ltac each_field H Hne :=
  unfold field_outcomes in H; simpl In in H;
  repeat (destruct H as [H|H]; [ | ]); try contradiction;
  inversion H; subst; clear H;
  match goal with
  | Ho : outcome ?f ?k ?d = Some ?e |- _ =>
      let m := fresh "m" in
      let raw := fresh "raw" in
      let Hraw := fresh "Hraw" in
      let Hd := fresh "Hd" in
      let Hnn := fresh "Hnn" in
      apply outcome_inv in Ho; [|reflexivity];
      destruct Ho as [[m Ho]|[raw [Hraw [Hnn Hd]]]];
      [ now elim (Hne m) | unfold_fields Hd ]
  end.

(** The scalar fields raise validation errors only. *)
Ltac scalar_field Hd Hne :=
  first [ apply String_raise in Hd
        | apply Boolean_raise in Hd
        | apply Integer_raise in Hd
        | apply Dict_raise in Hd
        | apply String_or_None_raise in Hd ];
  let m := fresh "m" in
  destruct Hd as [m Hd]; now elim (Hne m).

(** An element of a list field raised [e]. *)
Ltac list_field Hd Hne :=
  let m := fresh "m" in
  let l := fresh "l" in
  let i := fresh "i" in
  let x := fresh "x" in
  let Hl := fresh "Hl" in
  let Hi := fresh "Hi" in
  let Hx := fresh "Hx" in
  apply List_raise in Hd;
  destruct Hd as [[m Hd]|[l [i [x [Hl [Hi Hx]]]]]]; [now elim (Hne m)|];
  subst.

Ltac nested_elem Hx Hne :=
  let m := fresh "m" in
  apply Nested_raise in Hx; destruct Hx as [[m Hx]|Hx]; [now elim (Hne m)|].

Ltac string_elem Hx Hne :=
  let m := fresh "m" in
  apply present_raise in Hx; destruct Hx as [[m Hx]|Hx]; [now elim (Hne m)|];
  cbn [f_deserialize String_] in Hx;
  apply String_raise in Hx; destruct Hx as [m Hx]; now elim (Hne m).

Lemma RemapParam_can_raise v e :
  RemapParamSchema.load v = Raise e -> can_raise RemapParamS e.
Proof.
  intros H. apply (load_raise_inv RemapParamS) in H.
  destruct H as [[m ->]|[[d [key [Hv [H Hne]]]]|[d [v' [Hv [_ [_ H]]]]]]].
  - exact I.
  - each_field H Hne; scalar_field Hd Hne.
  - apply post_load_raise in H. destruct H as [names ->]. simpl. auto.
Qed.

Lemma CommandTestSpec_can_raise v e :
  CommandTestSpecSchema.load v = Raise e -> can_raise CommandTestSpecS e.
Proof.
  intros H. apply (load_raise_inv CommandTestSpecS) in H.
  destruct H as [[m ->]|[[d [key [Hv [H Hne]]]]|[d [v' [Hv [_ [_ H]]]]]]].
  - exact I.
  - each_field H Hne; try scalar_field Hd Hne.
    list_field Hd Hne. string_elem Hx Hne.
  - apply post_load_raise in H. destruct H as [names ->]. simpl. auto.
Qed.

Lemma Argument_can_raise v e :
  ArgumentSchema.load v = Raise e -> can_raise ArgumentS e.
Proof.
  intros H. apply (load_raise_inv ArgumentS) in H.
  destruct H as [[m ->]|[[d [key [Hv [H Hne]]]]|[d [v' [Hv [_ [_ H]]]]]]].
  - exact I.
  - each_field H Hne; try scalar_field Hd Hne.
    + discriminate Hd.
    + apply TypeField_raise in Hd. destruct Hd as [->|[Hd _]];
        [reflexivity|discriminate].
  - apply post_load_raise in H.
    destruct H as [[[msg ->]|[msg ->]]| ->]; simpl; auto.
Qed.

Lemma Option_can_raise v e :
  OptionSchema.load v = Raise e -> can_raise OptionS e.
Proof.
  intros H. apply (load_raise_inv OptionS) in H.
  destruct H as [[m ->]|[[d [key [Hv [H Hne]]]]|[d [v' [Hv [_ [_ H]]]]]]].
  - exact I.
  - each_field H Hne; try scalar_field Hd Hne.
    + discriminate Hd.
    + apply TypeField_raise in Hd. destruct Hd as [->|[_ ->]]; reflexivity.
    + discriminate Hd.
  - apply post_load_raise in H.
    destruct H as [[[msg ->]|[msg ->]]| ->]; simpl; auto.
Qed.

Lemma CommandStage_can_raise v e :
  CommandStageSchema.load v = Raise e -> can_raise CommandStageS e.
Proof.
  intros H. apply (load_raise_inv CommandStageS) in H.
  destruct H as [[m ->]|[[d [key [Hv [H Hne]]]]|[d [v' [Hv [_ [_ H]]]]]]].
  - exact I.
  - each_field H Hne; try scalar_field Hd Hne.
    list_field Hd Hne. nested_elem Hx Hne.
    apply RemapParam_can_raise in Hx.
    destruct e as [m|k|[cls names|k| |msg]|msg]; simpl in *;
      try discriminate; try tauto.
  - apply post_load_raise in H. destruct H as [names ->]. simpl. auto.
Qed.

(** What a nested schema lets out, the command schema lets out. *)
Lemma can_raise_nested (s : schema) e :
  s <> CommandSpecS -> can_raise s e -> can_raise CommandSpecS e.
Proof.
  intros Hs H.
  destruct e as [m|k|[cls names|k| |msg]|msg]; destruct s; simpl in *;
    try discriminate; try tauto; try reflexivity; try (now elim Hs).
Qed.

(** X1.  The exceptions that a load lets out are known, schema by schema:
    a KeyError only where the type field without a default is (the option
    schema, and the command schema that nests it); an AttributeError, a
    click TypeError or the TypeError of an unhashable type name only where
    click parameters are built; the TypeError of a constructor that misses
    arguments only for the classes that the schema builds; everything else
    is a ValidationError. *)
Theorem load_raises_only (s : schema) (v : value) (e : exn) :
  load s v = Raise e -> can_raise s e.
Proof.
  destruct s.
  - apply Option_can_raise.
  - apply Argument_can_raise.
  - apply RemapParam_can_raise.
  - apply CommandStage_can_raise.
  - apply CommandTestSpec_can_raise.
  - intros H. apply load_raise_inv in H.
    destruct H as [[m ->]|[[d [key [Hv [H Hne]]]]|[d [v' [Hv [_ [_ H]]]]]]].
    + exact I.
    + each_field H Hne; try scalar_field Hd Hne;
        list_field Hd Hne; try string_elem Hx Hne; nested_elem Hx Hne.
      * apply Argument_can_raise in Hx.
        apply (can_raise_nested ArgumentS); [discriminate|exact Hx].
      * apply Option_can_raise in Hx.
        apply (can_raise_nested OptionS); [discriminate|exact Hx].
      * apply CommandStage_can_raise in Hx.
        apply (can_raise_nested CommandStageS); [discriminate|exact Hx].
      * apply CommandTestSpec_can_raise in Hx.
        apply (can_raise_nested CommandTestSpecS); [discriminate|exact Hx].
    + apply post_load_raise in H. destruct H as [names ->]. simpl. auto.
Qed.

(** ** Loads that stop at an exception *)

Lemma load_field_Ok_outcome {A} (f : Field A) k d st a st' :
  load_field f k d st = Ok (a, st') ->
  forall e, outcome f k d = Some e -> exists m, e = ValidationError m.
Proof.
  unfold load_field, outcome.
  destruct (deserialize f (dict_get d k)) as [x|[m|key|why|msg]];
    try discriminate; intros _ e H; inversion H; eauto.
Qed.

(** A field loop that runs to its end met validation errors only. *)
Lemma fields_pass_Ok_outcomes (s : schema) d v st :
  fields_pass s d [] = Ok (v, st) ->
  only_validation_errors (field_outcomes s d).
Proof.
  intros H k e Hin.
  destruct s; open_pass H; clear H;
    unfold field_outcomes in Hin; simpl In in Hin;
    repeat (destruct Hin as [Hin|Hin]; [ | ]); try contradiction;
    inversion Hin; subst; clear Hin;
    match goal with
    | E : load_field ?f ?key d _ = Ok _, Ho : outcome ?f ?key d = Some e |- _ =>
        exact (load_field_Ok_outcome _ _ _ _ _ _ E e Ho)
    end.
Qed.

Lemma List_items_abort {A} (inner : value -> result A) l :
  forall n i x e,
    nth_error l i = Some x -> inner x = Raise e ->
    (forall m, e <> ValidationError m) ->
    exists e',
      List_items inner n l = Raise e' /\ forall m, e' <> ValidationError m.
Proof.
  induction l as [|y l IH]; intros n i x e Hi Hx Hne.
  - destruct i; discriminate.
  - simpl. destruct i as [|i]; simpl in Hi.
    + inversion Hi; subst. rewrite Hx.
      destruct e as [m| | |]; [now elim (Hne m)| | |]; eauto.
    + destruct (IH (S n) i x e Hi Hx Hne) as [e' [E He']].
      destruct (inner y) as [a|[m|k|w|msg]]; unfold bind; try rewrite E;
        eauto; eexists; split; try reflexivity; discriminate.
Qed.

Lemma nested_abort (s s' : schema) key d l i dx e :
  nested_in s key = Some s' ->
  dict_get d key = Some (VList l) ->
  nth_error l i = Some (VDict dx) ->
  load s' (VDict dx) = Raise e ->
  (forall m, e <> ValidationError m) ->
  exists e',
    In (key, Some e') (field_outcomes s d)
    /\ forall m, e' <> ValidationError m.
Proof.
  intros Hn Hk Hi Hx Hne.
  assert (G : forall (D : Type) (ld : value -> result D) ms,
             ld (VDict dx) = Raise e ->
             exists e',
               outcome (List_ (Nested ld) ms) key d = Some e'
               /\ forall m, e' <> ValidationError m).
  { intros D ld ms Hld. unfold outcome, deserialize. rewrite Hk. simpl.
    destruct (List_items_abort (deserialize_present (Nested ld)) l 0 i
                (VDict dx) e Hi Hld Hne) as [e' [E He']].
    unfold bind. rewrite E. eauto. }
  destruct s; simpl in Hn; try discriminate;
    repeat match type of Hn with
           | (if String.eqb key ?c then _ else _) = _ =>
               destruct (String.eqb_spec key c) as [->|?]
           end;
    try discriminate; inversion Hn; subst;
    match goal with
    | |- context [field_outcomes CommandStageS] =>
        destruct (G _ RemapParamSchema.load (Some []) Hx) as [e' [E He']]
    | Hk : dict_get d "arguments" = _ |- _ =>
        destruct (G _ ArgumentSchema.load (Some []) Hx) as [e' [E He']]
    | Hk : dict_get d "options" = _ |- _ =>
        destruct (G _ OptionSchema.load (Some []) Hx) as [e' [E He']]
    | Hk : dict_get d "stage" = _ |- _ =>
        destruct (G _ CommandStageSchema.load None Hx) as [e' [E He']]
    | Hk : dict_get d "test" = _ |- _ =>
        destruct (G _ CommandTestSpecSchema.load (Some []) Hx) as [e' [E He']]
    end;
    exists e'; (split; [|exact He']);
    rewrite <- E; unfold field_outcomes; simpl; tauto.
Qed.

(** X2.  A nested object whose load raises anything but a ValidationError
    stops the load of the object that holds it: that load raises an
    exception that is no ValidationError either, whatever validation errors
    and unknown keys the rest of the configuration has. *)
Theorem nested_exception_stops_load (s s' : schema) (key : string)
  (d : dict) (l : list value) (i : nat) (dx : dict) (e : exn) :
  nested_in s key = Some s' ->
  dict_get d key = Some (VList l) ->
  nth_error l i = Some (VDict dx) ->
  load s' (VDict dx) = Raise e ->
  (forall m, e <> ValidationError m) ->
  exists e',
    load s (VDict d) = Raise e' /\ forall m, e' <> ValidationError m.
Proof.
  intros Hn Hk Hi Hx Hne.
  destruct (nested_abort s s' key d l i dx e Hn Hk Hi Hx Hne)
    as [e' [Hin He']].
  destruct (fields_pass s d []) as [[v st]|e''] eqn:E.
  - destruct (fields_pass_Ok_outcomes s d v st E key e' Hin) as [m ->].
    now elim (He' m).
  - exists e''. split.
    + unfold load. simpl. now rewrite E.
    + apply (fields_pass_raise s d e'' E).
Qed.

(** X3.  The load of an option raises a KeyError exactly when the value
    under typex is hashable and no known type name, and the KeyError then
    holds that value: nothing else in the configuration, valid or not, is
    looked at. *)
Theorem option_key_error (d : dict) (k : value) :
  OptionSchema.load (VDict d) = Raise (KeyError k)
  <-> dict_get d "typex" = Some k /\ unknown_type_name k.
Proof.
  split.
  - intros H. apply (load_raise_inv OptionS) in H.
    destruct H as [[m H]|[[d' [key [Hv [H Hne]]]]|[d' [v' [Hv [_ [_ H]]]]]]].
    + discriminate.
    + inversion Hv; subst d'; clear Hv.
      each_field H Hne; try scalar_field Hd Hne; try discriminate Hd.
      pose proof Hd as Hd'.
      apply TypeField_raise in Hd. destruct Hd as [Hd|[_ Hd]];
        [discriminate|]. inversion Hd; subst raw.
      split; [exact Hraw|]. split; [exact Hnn|exact Hd'].
    + apply post_load_raise in H.
      destruct H as [[[msg H]|[msg H]]|H]; discriminate.
  - intros [Hk [Hnn Hd]].
    unfold OptionSchema.load, Schema_load, OptionSchema.fields_pass, bind.
    destruct (load_field OptionSchema.param_decls "name" d [])
      as [[a st]|e] eqn:E.
    + unfold load_field, deserialize at 1. rewrite Hk.
      unfold deserialize_present, bind.
      destruct k; try (now elim Hnn);
        cbn [OptionSchema.typex f_deserialize f_required]; now rewrite Hd.
    + apply load_field_raise in E. destruct E as [E Hne].
      apply outcome_inv in E; [|reflexivity].
      destruct E as [[m ->]|[raw [_ [_ E]]]]; [now elim (Hne m)|].
      discriminate E.
Qed.

(** X4.  An option whose configuration holds the key typex, or the key
    type, never loads: typex is no keyword that click's Option takes, and
    type is no key that the schema declares.  So no loaded option has a
    type that the configuration names. *)
Theorem loaded_option_names_no_type (d : dict) (o : Click.Option) :
  OptionSchema.load (VDict d) = Ok o ->
  dict_get d "typex" = None /\ dict_get d "type" = None.
Proof.
  intros H. apply (load_Ok OptionS) in H.
  destruct H as [d' [v [Hd [E [U P]]]]]. inversion Hd; subst d'. split.
  - pose proof (fields_pass_store OptionS d v [] E) as Hst.
    open_pass E. inversion E; subst; clear E.
    simpl in P. unfold OptionSchema.make_option, Click.Option_init in P.
    simpl in P. destruct a0 as [t|]; [discriminate P|].
    destruct (dict_get d "typex") as [raw|] eqn:Hk; [|reflexivity].
    unfold load_field, deserialize in E1. rewrite Hk in E1.
    unfold bind in E1.
    destruct (deserialize_present OptionSchema.typex raw)
      as [t|[m|k|w|msg]] eqn:Ed; try discriminate E1.
    assert (Hin : In (KField "typex", m)
                     (validation_errors (field_outcomes OptionS d))).
    { apply validation_errors_In. unfold field_outcomes. right. left.
      unfold outcome, deserialize. rewrite Hk. unfold bind.
      now rewrite Ed. }
    rewrite <- Hst in Hin. contradiction.
  - apply (not_unknown _ _ _ U). not_declared.
Qed.

(** X5.  A ValidationError that a load raises for a mapping holds entries
    only under keys that the mapping has: the external key of a declared
    field whose value is invalid, or a key that no field declares, with the
    unknown-field message.  The name of an attribute that differs from its
    key (stages, test_specs, param_decls) never appears unless the mapping
    itself has that key. *)
Theorem errors_name_present_keys (s : schema) (d : dict)
  (errs : list (ekey * errors)) :
  load s (VDict d) = Raise (ValidationError (Mapping errs)) ->
  errs <> []
  /\ forall k e,
       In (k, e) errs ->
       exists key,
         k = KField key /\ In key (dict_keys d)
         /\ (In key (data_keys s) \/ e = Messages ["Unknown field."]).
Proof.
  intros H. unfold load in H.
  destruct (fields_pass s d []) as [[v st]|e'] eqn:E.
  - rewrite (Schema_load_errors _ _ _ _ _ _ E) in H.
    rewrite store_unknown_app in H.
    pose proof (fields_pass_store s d v st E) as Hst.
    remember (st ++ map (fun k => (KField k, Messages ["Unknown field."]))
                     (unknown_keys (data_keys s) [] (dict_keys d)))%list
      as all eqn:Eq.
    destruct all as [|p all].
    + now elim (post_load_not_validation s v _ H).
    + inversion H; subst errs. split; [discriminate|].
      intros k e Hin. rewrite Eq in Hin.
      apply in_app_or in Hin. destruct Hin as [Hin|Hin].
      * rewrite Hst in Hin. destruct k as [key|i].
        -- apply validation_errors_In in Hin. exists key.
           split; [reflexivity|]. split.
           ++ apply dict_get_In. eapply field_outcomes_present; eauto.
           ++ left. clear - Hin.
              destruct s; unfold field_outcomes in Hin; simpl In in Hin;
                repeat (destruct Hin as [Hin|Hin]; [ | ]);
                try contradiction; inversion Hin; simpl; tauto.
        -- exfalso. clear - Hin.
           induction (field_outcomes s d) as [|[k' [[m| | |]|]] l IH];
             simpl in Hin; try tauto.
           destruct Hin as [Hin|Hin]; [discriminate|tauto].
      * apply in_map_iff in Hin. destruct Hin as [key [Hf Hin]].
        inversion Hf; subst. apply unknown_keys_In in Hin.
        exists key. split; [reflexivity|]. split; [tauto|]. now right.
  - simpl in H. rewrite E in H. simpl in H. inversion H; subst e'.
    destruct (fields_pass_raise s d _ E) as [Hno _]. now elim (Hno (Mapping errs)).
Qed.

(** ** Loads without an error *)

Lemma load_field_nil {A} (f : Field A) k d st a :
  load_field f k d st = Ok (a, []) ->
  st = []
  /\ match dict_get d k with
     | None => a = f_missing f
     | Some raw => exists x, deserialize_present f raw = Ok x /\ a = Some x
     end.
Proof.
  unfold load_field, deserialize.
  destruct (dict_get d k) as [raw|].
  - unfold bind. destruct (deserialize_present f raw) as [x|[m|key|w|msg]];
      intros H; inversion H; subst; try (now destruct st).
    split; [reflexivity|]. eauto.
  - destruct (f_required f); intros H; inversion H; subst;
      try (now destruct st).
    auto.
Qed.

(** After [open_pass] on a field loop that ended with an empty store:
    every field loaded from its value, or was absent. *)
Ltac clean_pass :=
  repeat match goal with
         | E : load_field _ _ _ ?st = Ok (_, []) |- _ =>
             let Hst := fresh "Hst" in
             apply load_field_nil in E; destruct E as [Hst E];
             try subst st
         end.

Lemma List_items_Forall2 {A} (inner : value -> result A) l :
  forall n r,
    List_items inner n l = Ok (r, []) ->
    Forall2 (fun x a => inner x = Ok a) l r.
Proof.
  induction l as [|y l IH]; intros n r; simpl.
  - intros H; inversion H. constructor.
  - destruct (inner y) as [a|[m|k|w|msg]] eqn:E; unfold bind;
      try discriminate;
      destruct (List_items inner (S n) l) as [[r' errs]|] eqn:El;
      try discriminate; intros H; inversion H; subst.
    constructor; [exact E|]. eapply IH; eauto.
Qed.

Lemma Forall2_List_items {A} (inner : value -> result A) l r :
  Forall2 (fun x a => inner x = Ok a) l r ->
  forall n, List_items inner n l = Ok (r, []).
Proof.
  induction 1 as [|x a l r Hx _ IH]; intros n; simpl; [reflexivity|].
  rewrite Hx. unfold bind. now rewrite IH.
Qed.

Lemma List_Ok {A} (inner : Field A) v r :
  List_deserialize inner v = Ok r <->
  exists l,
    v = VList l /\ Forall2 (fun x a => deserialize_present inner x = Ok a) l r.
Proof.
  split.
  - destruct v; simpl; try discriminate. unfold bind.
    destruct (List_items (deserialize_present inner) 0 l) as [[r' errs]|]
      eqn:E; try discriminate.
    destruct errs; try discriminate. intros H; inversion H; subst.
    exists l. split; [reflexivity|]. eapply List_items_Forall2; eauto.
  - intros [l [-> H]]. simpl.
    now rewrite (Forall2_List_items _ _ _ H 0).
Qed.

Lemma Nested_Ok (s : schema) x a :
  deserialize_present (Nested (load s)) x = Ok a <-> load s x = Ok a.
Proof.
  unfold deserialize_present. simpl.
  destruct x; try tauto. split; [discriminate|].
  unfold load. simpl. discriminate.
Qed.

Lemma String_Ok x s :
  deserialize_present String_ x = Ok s <-> x = VStr s.
Proof.
  unfold deserialize_present. simpl.
  destruct x; simpl; split; intros H; inversion H; reflexivity.
Qed.

Lemma Forall2_strings l r :
  Forall2 (fun x a => deserialize_present String_ x = Ok a) l r <->
  l = map VStr r.
Proof.
  split.
  - induction 1 as [|x a l r Hx _ IH]; [reflexivity|].
    apply String_Ok in Hx. simpl. now subst.
  - intros ->. induction r as [|a r IH]; constructor; auto.
Qed.

Lemma Forall2_nested (s : schema) l r :
  Forall2 (fun x a => deserialize_present (Nested (load s)) x = Ok a) l r <->
  Forall2 (fun x a => load s x = Ok a) l r.
Proof.
  split; induction 1; constructor; auto; now apply Nested_Ok.
Qed.

(** What a list field of nested objects loads. *)
Lemma nested_list_value (s : schema) ms key d st objs st' :
  (ms = None \/ ms = Some []) ->
  load_field (List_ (Nested (load s)) ms) key d st = Ok (Some objs, st') ->
  loaded_list (dict_get d key) (load s) objs.
Proof.
  intros Hms E. apply load_field_value in E. unfold loaded_list.
  destruct (dict_get d key) as [raw|].
  - unfold deserialize_present in E. simpl in E.
    destruct raw; try discriminate E.
    apply List_Ok in E. destruct E as [l' [Hl E]]. inversion Hl; subst l'.
    now apply Forall2_nested.
  - simpl in E. destruct Hms as [->| ->]; [discriminate|now inversion E].
Qed.

(** X6.  The lists of a loaded command are loaded element by element, in
    order: the value under stage is a list, and the stages are the loads of
    its elements, one for one; the same holds for arguments, options and
    test where the key is present, and they are empty where it is absent;
    inject_values holds exactly the strings of its list.  An empty list
    under stage loads, to a command with no stage. *)
Theorem lists_load_elementwise (d : dict) (spec : CommandSpec) :
  CommandSpecSchema.load (VDict d) = Ok spec ->
  (exists l,
      dict_get d "stage" = Some (VList l)
      /\ Forall2 (fun x st => CommandStageSchema.load x = Ok st) l
                 (stages spec))
  /\ loaded_list (dict_get d "arguments") ArgumentSchema.load (arguments spec)
  /\ loaded_list (dict_get d "options") OptionSchema.load (options spec)
  /\ loaded_list (dict_get d "test") CommandTestSpecSchema.load
                 (test_specs spec)
  /\ match dict_get d "inject_values" with
     | Some raw => raw = VList (map VStr (inject_values spec))
     | None => inject_values spec = []
     end.
Proof.
  intros H. apply (load_Ok CommandSpecS) in H.
  destruct H as [d' [v [Hd [E [U P]]]]]. inversion Hd; subst d'.
  apply CommandSpec_make_Ok in P. subst v.
  open_pass E. inversion E; subst; clear E.
  split; [|split; [|split; [|split]]].
  - pose proof (nested_list_value CommandStageS None "stage" d _ _ _
                  (or_introl eq_refl) E5) as H.
    unfold loaded_list in H.
    destruct (dict_get d "stage") as [[| | | | |l|]|] eqn:Hs;
      try contradiction.
    + now exists l.
    + apply load_field_value in E5. rewrite Hs in E5. discriminate E5.
  - exact (nested_list_value ArgumentS (Some []) "arguments" d _ _ _
             (or_intror eq_refl) E3).
  - exact (nested_list_value OptionS (Some []) "options" d _ _ _
             (or_intror eq_refl) E4).
  - exact (nested_list_value CommandTestSpecS (Some []) "test" d _ _ _
             (or_intror eq_refl) E7).
  - apply load_field_value in E6.
    destruct (dict_get d "inject_values") as [raw|].
    + unfold deserialize_present in E6. simpl in E6.
      destruct raw; try discriminate E6.
      apply List_Ok in E6. destruct E6 as [l' [Hl E6]].
      inversion Hl; subst l'. apply Forall2_strings in E6. now subst.
    + now inversion E6.
Qed.

(** ** Which mappings load *)

Lemma unknown_keys_nil (fields keys : list string) :
  unknown_keys fields [] keys = [] <-> forall k, In k keys -> In k fields.
Proof.
  split.
  - intros U k Hk.
    destruct (in_dec string_dec k fields) as [Hf|Hf]; [exact Hf|].
    assert (H : In k (unknown_keys fields [] keys))
      by (apply unknown_keys_In; simpl; tauto).
    rewrite U in H. contradiction.
  - intros H. destruct (unknown_keys fields [] keys) as [|k l] eqn:U;
      [reflexivity|].
    assert (Hk : In k (unknown_keys fields [] keys))
      by (rewrite U; now left).
    apply unknown_keys_In in Hk. destruct Hk as [Hk [Hf _]].
    now elim Hf; apply H.
Qed.

Lemma load_intro (s : schema) d v x :
  fields_pass s d [] = Ok (v, []) ->
  (forall k, In k (dict_keys d) -> In k (data_keys s)) ->
  post_load s v = Ok x ->
  load s (VDict d) = Ok x.
Proof.
  intros E U P. unfold load. rewrite (Schema_load_errors _ _ _ _ _ _ E).
  rewrite store_unknown_app.
  rewrite (proj2 (unknown_keys_nil _ _) U). exact P.
Qed.

Lemma load_field_present {A} (f : Field A) k d st raw x :
  dict_get d k = Some raw -> deserialize_present f raw = Ok x ->
  load_field f k d st = Ok (Some x, st).
Proof.
  intros Hk Hx. unfold load_field, deserialize. rewrite Hk.
  unfold bind. now rewrite Hx.
Qed.

(** X7.  A mapping loads to a remap exactly when it holds the strings of
    the remap under new and old and no other key. *)
Theorem remap_load_iff (d : dict) (r : RemapParam) :
  RemapParamSchema.load (VDict d) = Ok r
  <-> dict_get d "new" = Some (VStr (new r))
      /\ dict_get d "old" = Some (VStr (old r))
      /\ forall k, In k (dict_keys d) -> k = "new" \/ k = "old".
Proof.
  split.
  - intros H. apply (load_Ok RemapParamS) in H.
    destruct H as [d' [v [Hd [E [U P]]]]]. inversion Hd; subst d'.
    open_pass E. inversion E; subst; clear E. clean_pass.
    simpl in P. unfold RemapParamSchema.make_remap in P. simpl in P.
    destruct a as [n|]; [|discriminate P].
    destruct a0 as [o|]; [|discriminate P].
    inversion P; subst r; clear P. simpl.
    destruct (dict_get d "new") as [rn|]; [|discriminate E0].
    destruct (dict_get d "old") as [ro|]; [|discriminate E1].
    destruct E0 as [x [Hx Ex]]. destruct E1 as [y [Hy Ey]].
    inversion Ex; subst x. inversion Ey; subst y.
    apply String_Ok in Hx. apply String_Ok in Hy. subst.
    split; [reflexivity|]. split; [reflexivity|].
    intros k Hk. pose proof (proj1 (unknown_keys_nil _ _) U k Hk) as Hf.
    simpl in Hf. intuition congruence.
  - intros [Hn [Ho U]].
    apply (load_intro RemapParamS d
             (RemapParamSchema.mkValidated (Some (new r)) (Some (old r)))).
    + simpl. unfold RemapParamSchema.fields_pass, bind.
      rewrite (load_field_present RemapParamSchema.new "new" d [] _ (new r) Hn)
        by reflexivity.
      rewrite (load_field_present RemapParamSchema.old "old" d [] _ (old r) Ho)
        by reflexivity.
      reflexivity.
    + intros k Hk. simpl. destruct (U k Hk) as [->| ->]; auto.
    + destruct r; reflexivity.
Qed.

(** X8.  A mapping loads to a test exactly when it holds the list of the
    invocation strings under invocation, the strings of input and output
    under their keys, and no other key. *)
Theorem test_spec_load_iff (d : dict) (t : CommandTestSpec) :
  CommandTestSpecSchema.load (VDict d) = Ok t
  <-> dict_get d "invocation" = Some (VList (map VStr (invocation t)))
      /\ dict_get d "input" = Some (VStr (input t))
      /\ dict_get d "output" = Some (VStr (output t))
      /\ forall k, In k (dict_keys d) ->
                   k = "invocation" \/ k = "input" \/ k = "output".
Proof.
  split.
  - intros H. apply (load_Ok CommandTestSpecS) in H.
    destruct H as [d' [v [Hd [E [U P]]]]]. inversion Hd; subst d'.
    open_pass E. inversion E; subst; clear E. clean_pass.
    simpl in P. unfold CommandTestSpecSchema.make in P. simpl in P.
    destruct a as [i|]; [|discriminate P].
    destruct a0 as [n|]; [|destruct a1; discriminate P].
    destruct a1 as [o|]; [|discriminate P].
    inversion P; subst t; clear P. simpl.
    destruct (dict_get d "invocation") as [ri|]; [|discriminate E0].
    destruct (dict_get d "input") as [rn|]; [|discriminate E1].
    destruct (dict_get d "output") as [ro|]; [|discriminate E2].
    destruct E0 as [x [Hx Ex]]. destruct E1 as [y [Hy Ey]].
    destruct E2 as [z [Hz Ez]].
    inversion Ex; subst x. inversion Ey; subst y. inversion Ez; subst z.
    apply String_Ok in Hy. apply String_Ok in Hz. subst.
    unfold deserialize_present in Hx. simpl in Hx.
    destruct ri; try discriminate Hx.
    apply List_Ok in Hx. destruct Hx as [l' [Hl Hx]]. inversion Hl; subst l'.
    apply Forall2_strings in Hx. subst.
    repeat (split; [reflexivity|]).
    intros k Hk. pose proof (proj1 (unknown_keys_nil _ _) U k Hk) as Hf.
    simpl in Hf. intuition congruence.
  - intros [Hi [Hn [Ho U]]].
    apply (load_intro CommandTestSpecS d
             (CommandTestSpecSchema.mkValidated
                (Some (invocation t)) (Some (input t)) (Some (output t)))).
    + simpl. unfold CommandTestSpecSchema.fields_pass, bind.
      rewrite (load_field_present CommandTestSpecSchema.invocation
                 "invocation" d [] _ (invocation t) Hi).
      * rewrite (load_field_present CommandTestSpecSchema.input "input" d []
                   _ (input t) Hn) by reflexivity.
        rewrite (load_field_present CommandTestSpecSchema.output "output" d []
                   _ (output t) Ho) by reflexivity.
        reflexivity.
      * apply (proj2 (List_Ok String_ (VList (map VStr (invocation t)))
                               (invocation t))).
        eexists. split; [reflexivity|]. now apply Forall2_strings.
    + intros k Hk. simpl. destruct (U k Hk) as [->|[->| ->]]; auto.
    + destruct t; reflexivity.
Qed.

(** X9.  A mapping loads to a stage exactly when it holds the command as
    a string, under remap_params nothing or a list whose elements load to
    the stage's remaps one for one, under params nothing or the very
    mapping that the stage has as its params (whatever its values are: they
    are not looked at), and no other key. *)
Theorem stage_load_iff (d : dict) (st : CommandStage) :
  CommandStageSchema.load (VDict d) = Ok st
  <-> dict_get d "command" = Some (VStr (command st))
      /\ loaded_list (dict_get d "remap_params") RemapParamSchema.load
                     (remap_params st)
      /\ match dict_get d "params" with
         | Some raw => raw = VDict (params st)
         | None => params st = []
         end
      /\ forall k, In k (dict_keys d) ->
                   k = "command" \/ k = "remap_params" \/ k = "params".
Proof.
  split.
  - intros H. apply (load_Ok CommandStageS) in H.
    destruct H as [d' [v [Hd [E [U P]]]]]. inversion Hd; subst d'.
    apply CommandStage_make_Ok in P. subst v.
    open_pass E. inversion E; subst; clear E.
    pose proof (nested_list_value RemapParamS (Some []) "remap_params" d
                  _ _ _ (or_intror eq_refl) E1) as Hr.
    apply load_field_value in E0. apply load_field_value in E2.
    split; [|split; [exact Hr|split]].
    + destruct (dict_get d "command") as [rc|]; [|discriminate E0].
      apply String_Ok in E0. now subst.
    + destruct (dict_get d "params") as [rp|]; [|now inversion E2].
      unfold deserialize_present in E2. simpl in E2.
      destruct rp; try discriminate E2. now inversion E2.
    + intros k Hk. pose proof (proj1 (unknown_keys_nil _ _) U k Hk) as Hf.
      simpl in Hf. intuition congruence.
  - intros [Hc [Hr [Hp U]]].
    apply (load_intro CommandStageS d
             (CommandStageSchema.mkValidated
                (Some (command st)) (Some (remap_params st))
                (Some (params st)))).
    + simpl. unfold CommandStageSchema.fields_pass, bind.
      rewrite (load_field_present CommandStageSchema.command "command" d []
                 _ (command st) Hc) by reflexivity.
      assert (E1 : load_field CommandStageSchema.remap_params "remap_params"
                     d [] = Ok (Some (remap_params st), [])).
      { unfold loaded_list in Hr.
        destruct (dict_get d "remap_params") as [raw|] eqn:Hk.
        - destruct raw; try contradiction.
          apply (load_field_present _ _ _ _ _ _ Hk).
          apply (proj2 (List_Ok (Nested (load RemapParamS)) (VList l)
                                 (remap_params st))).
          eexists. split; [reflexivity|].
          now apply (Forall2_nested RemapParamS).
        - rewrite (load_field_absent CommandStageSchema.remap_params
                     "remap_params" d [] Hk eq_refl). simpl.
          now rewrite Hr. }
      rewrite E1.
      assert (E2 : load_field CommandStageSchema.params "params" d []
                   = Ok (Some (params st), [])).
      { destruct (dict_get d "params") as [raw|] eqn:Hk.
        - subst raw. now apply (load_field_present _ _ _ _ _ _ Hk).
        - rewrite (load_field_absent CommandStageSchema.params "params" d []
                     Hk eq_refl). simpl.
          now rewrite Hp. }
      rewrite E2. reflexivity.
    + intros k Hk. simpl. destruct (U k Hk) as [->|[->| ->]]; auto.
    + destruct st; reflexivity.
Qed.

(** ** The constructor's error *)

Lemma validation_errors_none l :
  (forall k e, ~ In (k, Some e) l) -> validation_errors l = [].
Proof.
  induction l as [|[k [e|]] l IH]; intros H; simpl.
  - reflexivity.
  - now elim (H k e); left.
  - apply IH. intros k' e' Hin. apply (H k' e'). now right.
Qed.

Lemma no_field_raises_pass (s : schema) d :
  no_field_raises s d <-> exists v, fields_pass s d [] = Ok (v, []).
Proof.
  split.
  - intros H.
    assert (Ho : only_validation_errors (field_outcomes s d))
      by (intros k e Hin; now elim (H k e)).
    destruct (fields_pass_total s d Ho) as [v E].
    rewrite (validation_errors_none _ H) in E. eauto.
  - intros [v E] k e Hin.
    destruct (fields_pass_Ok_outcomes s d v [] E k e Hin) as [m ->].
    apply validation_errors_In in Hin.
    rewrite <- (fields_pass_store s d v [] E) in Hin. contradiction.
Qed.

(** What the command's constructor is given after a field loop without an
    error: all the keywords but those of an absent name and an absent
    stage. *)
Lemma CommandSpec_post_load d v :
  CommandSpecSchema.fields_pass d [] = Ok (v, []) ->
  match (absent "name" (dict_get d "name")
         ++ absent "stages" (dict_get d "stage"))%list with
  | [] => exists spec, CommandSpecSchema.make v = Ok spec
  | names =>
      CommandSpecSchema.make v
      = Raise (TypeError (MissingArguments "CommandSpec" names))
  end.
Proof.
  intros E.
  change (fields_pass CommandSpecS d [] = Ok (v, [])) in E.
  open_pass E. inversion E; subst; clear E. clean_pass.
  repeat match goal with
         | E : match dict_get d ?k with _ => _ end |- _ =>
             destruct (dict_get d k);
             [ let x := fresh "x" in
               let Hx := fresh "Hx" in
               destruct E as [x [Hx E]]
             | cbn in E ];
             subst
         end;
    unfold CommandSpecSchema.make; simpl; eauto.
Qed.

(** X10.  The load of a command raises the TypeError of the CommandSpec
    constructor exactly when the mapping lacks name or stage, no field
    raises anything on what the mapping holds, and every key is declared;
    the error lists exactly the absent ones of name and stages, in this
    order, and never one of the seven attributes whose fields have a
    default. *)
Theorem constructor_error_iff (d : dict) (names : list string) :
  CommandSpecSchema.load (VDict d)
  = Raise (TypeError (MissingArguments "CommandSpec" names))
  <-> names <> []
      /\ names = (absent "name" (dict_get d "name")
                  ++ absent "stages" (dict_get d "stage"))%list
      /\ no_field_raises CommandSpecS d
      /\ forall k, In k (dict_keys d) -> In k (data_keys CommandSpecS).
Proof.
  split.
  - intros H. apply (load_raise_inv CommandSpecS) in H.
    destruct H as [[m H]|[[d' [key [Hv [H Hne]]]]|[d' [v' [Hv [E [U H]]]]]]].
    + discriminate.
    + exfalso. inversion Hv; subst d'; clear Hv.
      each_field H Hne; try scalar_field Hd Hne;
        list_field Hd Hne; try string_elem Hx Hne; nested_elem Hx Hne.
      * apply Argument_can_raise in Hx. simpl in Hx.
        repeat (destruct Hx as [Hx|Hx]; [discriminate Hx| ]). exact Hx.
      * apply Option_can_raise in Hx. exact Hx.
      * apply CommandStage_can_raise in Hx. simpl in Hx.
        repeat (destruct Hx as [Hx|Hx]; [discriminate Hx| ]). exact Hx.
      * apply CommandTestSpec_can_raise in Hx. simpl in Hx.
        repeat (destruct Hx as [Hx|Hx]; [discriminate Hx| ]). exact Hx.
    + inversion Hv; subst d'; clear Hv.
      pose proof (CommandSpec_post_load d v' E) as Hp. simpl in H.
      destruct (absent "name" (dict_get d "name")
                ++ absent "stages" (dict_get d "stage"))%list as [|n ns].
      * destruct Hp as [spec Hp]. rewrite Hp in H. discriminate.
      * rewrite Hp in H. inversion H; subst names.
        split; [discriminate|]. split; [reflexivity|].
        split; [apply no_field_raises_pass; eauto|].
        now apply unknown_keys_nil.
  - intros [Hne [Hn [Hf U]]].
    apply no_field_raises_pass in Hf. destruct Hf as [v E].
    pose proof (CommandSpec_post_load d v E) as Hp.
    rewrite <- Hn in Hp. destruct names as [|n ns]; [now elim Hne|].
    change (load CommandSpecS (VDict d)
            = Raise (TypeError (MissingArguments "CommandSpec" (n :: ns)))).
    unfold load. rewrite (Schema_load_errors _ _ _ _ _ _ E).
    rewrite store_unknown_app.
    rewrite (proj2 (unknown_keys_nil _ _) U). exact Hp.
Qed.

(** X11.  The type of a loaded argument is click's STRING unless the value
    under type is one of the names int, bool and float: an absent type, an
    unrecognized name and a value that is no string at all give STRING
    alike, the first by click's default and the others by the default of
    the type field. *)
Theorem argument_type_falls_back (d : dict) (a : Click.Argument) :
  ArgumentSchema.load (VDict d) = Ok a ->
  Click.a_type a
  = match dict_get d "type" with
    | Some (VStr n) =>
        match TYPES_get TYPES n with
        | Some t => Click.convert_type t
        | None => Click.STRING
        end
    | _ => Click.STRING
    end.
Proof.
  intros H. apply (load_Ok ArgumentS) in H.
  destruct H as [d' [v [Hd [E [U P]]]]]. inversion Hd; subst d'.
  open_pass E. inversion E; subst; clear E. clean_pass.
  simpl in P. unfold ArgumentSchema.make_argument, Click.Argument_init in P.
  simpl in P.
  destruct a0 as [decls|]; [|discriminate P].
  unfold bind in P.
  destruct (Click.Argument_parse_decls decls) as [[[n o] se]|];
    [|discriminate P].
  inversion P; subst a; clear P. cbn [Click.a_type].
  destruct (dict_get d "type") as [raw|].
  - destruct E1 as [t [Ht ->]].
    unfold deserialize_present, ArgumentSchema.type in Ht.
    cbn [f_deserialize f_none] in Ht. unfold TypeField_deserialize in Ht.
    destruct raw; try discriminate Ht; try (inversion Ht; reflexivity).
    destruct (TYPES_get TYPES s); inversion Ht; subst; reflexivity.
  - simpl in E1. now subst.
Qed.

(** ** None, and the order of the keys *)

(** A field loop reads the data through the declared keys only. *)
Lemma fields_pass_ext (s : schema) d d' st :
  (forall k, In k (data_keys s) -> dict_get d k = dict_get d' k) ->
  fields_pass s d st = fields_pass s d' st.
Proof.
  intros H.
  destruct s;
    cbv beta iota delta
      [fields_pass OptionSchema.fields_pass ArgumentSchema.fields_pass
         RemapParamSchema.fields_pass CommandStageSchema.fields_pass
         CommandTestSpecSchema.fields_pass CommandSpecSchema.fields_pass
         load_field];
    repeat match goal with
           | |- context [dict_get d ?k] =>
               rewrite (H k) by (simpl; tauto)
           end;
    reflexivity.
Qed.

(** X12.  For the three fields of the command schema that are declared
    with missing=None (help, short_help, section), a None written out in
    the configuration loads exactly as the absent key does. *)
Theorem explicit_none_is_absent (key : string) (d : dict) :
  In key ["help"; "short_help"; "section"] ->
  dict_get d key = None ->
  CommandSpecSchema.load (VDict ((key, VNone) :: d))
  = CommandSpecSchema.load (VDict d).
Proof.
  intros Hin Hk.
  assert (E : forall st,
             CommandSpecSchema.fields_pass ((key, VNone) :: d) st
             = CommandSpecSchema.fields_pass d st).
  { intros st.
    simpl in Hin.
    destruct Hin as [<-|[<-|[<-|[]]]];
      unfold CommandSpecSchema.fields_pass, load_field;
      cbn [dict_get String.eqb Ascii.eqb Bool.eqb]; rewrite Hk;
      reflexivity. }
  unfold CommandSpecSchema.load, Schema_load. rewrite E.
  unfold bind. destruct (CommandSpecSchema.fields_pass d []) as [[v st]|e];
    [|reflexivity].
  rewrite !store_unknown_app.
  replace (unknown_keys CommandSpecSchema.data_keys []
             (dict_keys ((key, VNone) :: d)))
    with (unknown_keys CommandSpecSchema.data_keys [] (dict_keys d));
    [reflexivity|].
  simpl in Hin. destruct Hin as [<-|[<-|[<-|[]]]]; reflexivity.
Qed.

(** X13.  Every other declared field refuses None: a mapping that holds
    None under the key of a field that is not declared with missing=None
    never loads, the field raises the null message, and when no field
    raises anything but validation errors the load raises a ValidationError
    with that message under the key.  This holds for the fields declared
    with default=None (an option's help and default, an argument's nargs)
    as for the others. *)
Theorem none_is_refused (s : schema) (key : string) (d : dict) :
  In key (data_keys s) -> nullable s key = false ->
  dict_get d key = Some VNone ->
  In (key, Some (ValidationError (Messages ["Field may not be null."])))
     (field_outcomes s d)
  /\ (forall x, load s (VDict d) <> Ok x)
  /\ (only_validation_errors (field_outcomes s d) ->
      exists errs,
        load s (VDict d) = Raise (ValidationError (Mapping errs))
        /\ In (KField key, Messages ["Field may not be null."]) errs).
Proof.
  intros Hin Hn Hk.
  assert (Ho : In (key, Some (ValidationError
                                (Messages ["Field may not be null."])))
                  (field_outcomes s d)).
  { destruct s; simpl in Hin;
      repeat (destruct Hin as [Hin|Hin]; [subst key| ]);
      try contradiction; try discriminate Hn;
      unfold field_outcomes;
      repeat first [ left; f_equal; unfold outcome, deserialize;
                     rewrite Hk; reflexivity
                   | right ]. }
  split; [exact Ho|]. split.
  - intros x Hx. apply load_Ok in Hx.
    destruct Hx as [d' [v [Hd [E _]]]]. inversion Hd; subst d'.
    apply validation_errors_In in Ho.
    rewrite <- (fields_pass_store s d v [] E) in Ho. contradiction.
  - intros H. destruct (load_collects s d H) as [v [_ E]].
    assert (Hi : In (KField key, Messages ["Field may not be null."])
                    (validation_errors (field_outcomes s d)
                     ++ unknown_errors s d)%list)
      by (apply in_or_app; left; now apply validation_errors_In).
    destruct (validation_errors (field_outcomes s d) ++ unknown_errors s d)%list
      as [|p errs]; [contradiction|].
    exists (p :: errs). split; [exact E|exact Hi].
Qed.

Lemma dict_get_perm (d d' : dict) (k : string) :
  Permutation d d' -> NoDup (dict_keys d) -> dict_get d k = dict_get d' k.
Proof.
  induction 1 as [|[k0 v0] l l' Hp IH|[k1 v1] [k2 v2] l|l l' l'' H1 IH1 H2 IH2];
    intros Hnd.
  - reflexivity.
  - simpl. destruct (String.eqb k0 k); [reflexivity|].
    apply IH. now inversion Hnd.
  - simpl. simpl in Hnd.
    destruct (String.eqb_spec k1 k) as [->|H1];
      destruct (String.eqb_spec k2 k) as [->|H2]; try reflexivity.
    inversion Hnd as [|? ? Hni _]. elim Hni. now left.
  - rewrite IH1 by exact Hnd. apply IH2.
    unfold dict_keys. eapply Permutation_NoDup; [|exact Hnd].
    now apply Permutation_map.
Qed.

Lemma unknown_keys_filter (fields : list string) (keys : list string) :
  forall seen,
    NoDup keys -> (forall k, In k seen -> ~ In k keys) ->
    unknown_keys fields seen keys
    = filter (fun k => negb (mem_string k fields)) keys.
Proof.
  induction keys as [|k keys IH]; intros seen Hnd Hs; simpl; [reflexivity|].
  inversion Hnd as [|? ? Hk Hnd']; subst.
  destruct (mem_string k fields) eqn:F; simpl.
  - apply IH; [exact Hnd'|]. intros x Hx Hin. apply (Hs x Hx). now right.
  - destruct (mem_string k seen) eqn:S.
    + apply mem_string_In in S. elim (Hs k S). now left.
    + f_equal. apply IH; [exact Hnd'|].
      intros x [<-|Hx] Hin; [contradiction|]. apply (Hs x Hx). now right.
Qed.

Lemma Permutation_filter' {A} (f : A -> bool) l l' :
  Permutation l l' -> Permutation (filter f l) (filter f l').
Proof.
  induction 1 as [|x l l' _ IH|x y l|l l' l'' _ IH1 _ IH2]; simpl.
  - constructor.
  - destruct (f x); [now constructor|exact IH].
  - destruct (f x), (f y); try reflexivity. constructor.
  - now transitivity (filter f l').
Qed.

(** X14.  A load depends on the mapping, not on the order in which its
    keys are written: for two orders of one mapping whose keys are
    distinct, the loads give the same object, or raise the same exception,
    or raise ValidationErrors with the same entries (the entries of the
    unknown keys follow the order of the keys). *)
Theorem load_ignores_key_order (s : schema) (d d' : dict) :
  NoDup (dict_keys d) -> Permutation d d' ->
  match load s (VDict d) with
  | Raise (ValidationError (Mapping errs)) =>
      exists errs',
        load s (VDict d') = Raise (ValidationError (Mapping errs'))
        /\ Permutation errs errs'
  | r => load s (VDict d') = r
  end.
Proof.
  intros Hnd Hp.
  assert (Hnd' : NoDup (dict_keys d')).
  { unfold dict_keys. eapply Permutation_NoDup; [|exact Hnd].
    now apply Permutation_map. }
  assert (E : fields_pass s d' [] = fields_pass s d []).
  { apply fields_pass_ext. intros k _. symmetry. now apply dict_get_perm. }
  assert (U : Permutation
                (map (fun k => (KField k, Messages ["Unknown field."]))
                     (unknown_keys (data_keys s) [] (dict_keys d)))
                (map (fun k => (KField k, Messages ["Unknown field."]))
                     (unknown_keys (data_keys s) [] (dict_keys d')))).
  { apply Permutation_map.
    rewrite !unknown_keys_filter by (auto; intros k []).
    apply Permutation_filter'. now apply Permutation_map. }
  unfold load, Schema_load. rewrite E. unfold bind.
  destruct (fields_pass s d []) as [[v st]|[m|k|w|msg]]; try reflexivity.
  - rewrite !store_unknown_app.
    pose proof (Permutation_app_head st U) as Hall.
    destruct (st ++ map _ (unknown_keys _ [] (dict_keys d)))%list
      as [|p errs].
    + apply Permutation_nil in Hall. rewrite Hall.
      destruct (post_load s v) as [x|[m|k|w|msg]] eqn:P; try reflexivity.
      now elim (post_load_not_validation s v m).
    + destruct (st ++ map _ (unknown_keys _ [] (dict_keys d')))%list
        as [|p' errs'] eqn:Eq.
      * apply Permutation_sym, Permutation_nil in Hall. discriminate.
      * exists (p' :: errs'). split; [reflexivity|exact Hall].
  - destruct m; [reflexivity|].
    eexists. split; [reflexivity|apply Permutation_refl].
Qed.

(** X15.  The name of an option or of an argument is never the subject of
    a validation error, whatever value other than None stands under the key
    name: a ValidationError that the load raises has no entry under name.
    A name that is no string, or an option name that click cannot parse,
    fails in the constructor instead. *)
Theorem names_are_not_validated (s : schema) (d : dict) (v : value)
  (errs : list (ekey * errors)) :
  s = OptionS \/ s = ArgumentS ->
  dict_get d "name" = Some v -> v <> VNone ->
  load s (VDict d) = Raise (ValidationError (Mapping errs)) ->
  ~ In (KField "name") (map fst errs).
Proof.
  intros Hs Hk Hv H Hin. unfold load in H.
  assert (Ho : forall e, ~ In ("name", Some e) (field_outcomes s d)).
  { intros e He.
    assert (Hnone : forall ds : value -> result (list value),
               (forall x, ds x = Ok [x]) ->
               outcome (mkField false None None ds) "name" d = None).
    { intros ds Hds. unfold outcome, deserialize. rewrite Hk.
      unfold bind, deserialize_present. cbn [f_none f_deserialize f_required].
      destruct v; try (now elim Hv); now rewrite Hds. }
    destruct Hs as [-> | ->]; unfold field_outcomes in He; simpl In in He;
      repeat (destruct He as [He|He]; [ | ]); try contradiction;
      try discriminate He; inversion He as [He'].
    - unfold OptionSchema.param_decls in He'.
      rewrite (Hnone _ OptionNameField_wraps) in He'. discriminate.
    - unfold ArgumentSchema.param_decls in He'.
      rewrite (Hnone ArgumentNameField_deserialize (fun x => eq_refl)) in He'.
      discriminate. }
  destruct (fields_pass s d []) as [[v' st]|e'] eqn:E.
  - rewrite (Schema_load_errors _ _ _ _ _ _ E) in H.
    rewrite store_unknown_app in H.
    pose proof (fields_pass_store s d v' st E) as Hst.
    remember (st ++ map (fun k => (KField k, Messages ["Unknown field."]))
                     (unknown_keys (data_keys s) [] (dict_keys d)))%list
      as all eqn:Eq.
    destruct all as [|p all].
    + now elim (post_load_not_validation s v' _ H).
    + inversion H; subst errs. rewrite Eq in Hin.
      apply in_map_iff in Hin. destruct Hin as [[k e] [Hf Hin]].
      simpl in Hf. subst k. apply in_app_or in Hin.
      destruct Hin as [Hin|Hin].
      * rewrite Hst in Hin. apply validation_errors_In in Hin.
        now elim (Ho _ Hin).
      * apply in_map_iff in Hin. destruct Hin as [k [Hf Hin]].
        inversion Hf; subst k. apply unknown_keys_In in Hin.
        destruct Hin as [_ [Hd _]]. apply Hd.
        destruct Hs as [-> | ->]; simpl; auto.
  - simpl in H. rewrite E in H. simpl in H. inversion H; subst e'.
    destruct (fields_pass_raise s d _ E) as [Hno _].
    now elim (Hno (Mapping errs)).
Qed.

(** ** The properties at concrete configurations *)

Lemma load_raises_only_witness :
  load OptionS (VDict bogus_type_config) = Raise (KeyError (VStr "bogus"))
  /\ can_raise OptionS (KeyError (VStr "bogus")).
Proof.
  split; [reflexivity|].
  exact (load_raises_only OptionS (VDict bogus_type_config) _ eq_refl).
Defined.

Lemma nested_exception_stops_load_witness :
  nested_in CommandSpecS "stage" = Some CommandStageS
  /\ load CommandStageS (VDict [])
     = Raise (TypeError (MissingArguments "CommandStage" ["command"]))
  /\ exists e',
       load CommandSpecS (VDict commandless_stage_config) = Raise e'
       /\ forall m, e' <> ValidationError m.
Proof.
  split; [reflexivity|]. split; [reflexivity|].
  apply (nested_exception_stops_load CommandSpecS CommandStageS "stage"
           commandless_stage_config [VDict []] 0 []
           (TypeError (MissingArguments "CommandStage" ["command"])));
    try reflexivity.
  discriminate.
Defined.

Lemma option_key_error_witness :
  dict_get bogus_type_config "typex" = Some (VStr "bogus")
  /\ unknown_type_name (VStr "bogus")
  /\ OptionSchema.load (VDict bogus_type_config)
     = Raise (KeyError (VStr "bogus")).
Proof.
  assert (H1 : dict_get bogus_type_config "typex" = Some (VStr "bogus"))
    by reflexivity.
  assert (H2 : unknown_type_name (VStr "bogus"))
    by (split; [discriminate|reflexivity]).
  split; [exact H1|]. split; [exact H2|].
  exact (proj2 (option_key_error bogus_type_config (VStr "bogus"))
           (conj H1 H2)).
Defined.

Lemma loaded_option_names_no_type_witness :
  (exists o, OptionSchema.load (VDict [("name", VStr "--x")]) = Ok o)
  /\ dict_get [("name", VStr "--x")] "typex" = None.
Proof.
  split; [eexists; reflexivity|].
  exact (proj1 (loaded_option_names_no_type [("name", VStr "--x")] _ eq_refl)).
Defined.

Lemma errors_name_present_keys_witness :
  (exists errs,
      load CommandSpecS (VDict broken_config)
      = Raise (ValidationError (Mapping errs)))
  /\ forall errs,
       load CommandSpecS (VDict broken_config)
       = Raise (ValidationError (Mapping errs)) ->
       errs <> [].
Proof.
  split; [eexists; reflexivity|].
  intros errs H.
  exact (proj1 (errors_name_present_keys CommandSpecS broken_config errs H)).
Defined.

Lemma lists_load_elementwise_witness :
  CommandSpecSchema.load (VDict one_stage_config) = Ok one_stage_spec
  /\ exists l,
       dict_get one_stage_config "stage" = Some (VList l)
       /\ Forall2 (fun x st => CommandStageSchema.load x = Ok st) l
                  (stages one_stage_spec).
Proof.
  split; [reflexivity|].
  exact (proj1 (lists_load_elementwise one_stage_config one_stage_spec
                  eq_refl)).
Defined.

Lemma remap_load_iff_witness :
  dict_get remap_config "new" = Some (VStr "x")
  /\ RemapParamSchema.load (VDict remap_config) = Ok (mkRemapParam "x" "a").
Proof.
  split; [reflexivity|].
  apply (proj2 (remap_load_iff remap_config (mkRemapParam "x" "a"))).
  split; [reflexivity|]. split; [reflexivity|].
  simpl. intros k [<-|[<-|[]]]; auto.
Defined.

Lemma test_spec_load_iff_witness :
  CommandTestSpecSchema.load (VDict test_config) = Ok test_spec
  /\ dict_get test_config "input" = Some (VStr "a").
Proof.
  split; [reflexivity|].
  exact (proj1 (proj2 (proj1 (test_spec_load_iff test_config test_spec)
                         eq_refl))).
Defined.

Lemma stage_load_iff_witness :
  CommandStageSchema.load (VDict numeric_params_config)
  = Ok numeric_params_stage
  /\ dict_get numeric_params_config "command" = Some (VStr "map").
Proof.
  split; [reflexivity|].
  exact (proj1 (proj1 (stage_load_iff numeric_params_config
                         numeric_params_stage) eq_refl)).
Defined.

Lemma constructor_error_iff_witness :
  CommandSpecSchema.load (VDict [("help", VStr "h")])
  = Raise (TypeError (MissingArguments "CommandSpec" ["name"; "stages"]))
  /\ no_field_raises CommandSpecS [("help", VStr "h")].
Proof.
  split; [reflexivity|].
  exact (proj1 (proj2 (proj2 (proj1 (constructor_error_iff
                                       [("help", VStr "h")]
                                       ["name"; "stages"]) eq_refl)))).
Defined.

Lemma argument_type_falls_back_witness :
  (exists a, ArgumentSchema.load (VDict bogus_argument_config) = Ok a)
  /\ forall a,
       ArgumentSchema.load (VDict bogus_argument_config) = Ok a ->
       Click.a_type a = Click.STRING.
Proof.
  split; [eexists; reflexivity|].
  intros a H.
  exact (argument_type_falls_back bogus_argument_config a H).
Defined.

Lemma explicit_none_is_absent_witness :
  In "help" ["help"; "short_help"; "section"]
  /\ dict_get one_stage_config "help" = None
  /\ CommandSpecSchema.load (VDict (("help", VNone) :: one_stage_config))
     = CommandSpecSchema.load (VDict one_stage_config).
Proof.
  assert (H1 : In "help" ["help"; "short_help"; "section"])
    by (simpl; auto).
  assert (H2 : dict_get one_stage_config "help" = None) by reflexivity.
  split; [exact H1|]. split; [exact H2|].
  exact (explicit_none_is_absent "help" one_stage_config H1 H2).
Defined.

Lemma none_is_refused_witness :
  In "help" (data_keys OptionS)
  /\ nullable OptionS "help" = false
  /\ dict_get null_help_config "help" = Some VNone
  /\ forall x, load OptionS (VDict null_help_config) <> Ok x.
Proof.
  assert (H1 : In "help" (data_keys OptionS)) by (simpl; tauto).
  assert (H2 : nullable OptionS "help" = false) by reflexivity.
  assert (H3 : dict_get null_help_config "help" = Some VNone) by reflexivity.
  split; [exact H1|]. split; [exact H2|]. split; [exact H3|].
  exact (proj1 (proj2 (none_is_refused OptionS "help" null_help_config
                         H1 H2 H3))).
Defined.

Lemma load_ignores_key_order_witness :
  NoDup (dict_keys one_stage_config)
  /\ Permutation one_stage_config one_stage_config_reversed
  /\ load CommandSpecS (VDict one_stage_config_reversed)
     = Ok one_stage_spec.
Proof.
  assert (H1 : NoDup (dict_keys one_stage_config)).
  { simpl. repeat constructor; simpl; intuition discriminate. }
  assert (H2 : Permutation one_stage_config one_stage_config_reversed)
    by apply perm_swap.
  split; [exact H1|]. split; [exact H2|].
  exact (load_ignores_key_order CommandSpecS one_stage_config
           one_stage_config_reversed H1 H2).
Defined.

Lemma names_are_not_validated_witness :
  dict_get numeric_name_config "name" = Some (VInt 5)
  /\ load OptionS (VDict numeric_name_config)
     = Raise (ValidationError
                (Mapping [(KField "hidden", Messages ["Not a valid boolean."])]))
  /\ ~ In (KField "name")
         (map fst [(KField "hidden", Messages ["Not a valid boolean."])]).
Proof.
  split; [reflexivity|]. split; [reflexivity|].
  apply (names_are_not_validated OptionS numeric_name_config (VInt 5));
    [now left | reflexivity | discriminate | reflexivity].
Defined.

(** ** What stands under the external keys *)







(** ** Stage resolution *)

Section Resolution.

Import StageResolver.















End Resolution.

Example example_stage_resolves :
  StageResolver.resolve example_registry example_stage
  = inr [("x", VStr "1"); ("b", VStr "2")].
Proof. reflexivity. Qed.

Example example_unknown_parameter :
  StageResolver.resolve example_registry
    (mkCommandStage "cmd" [mkRemapParam "x" "a"] [("z", VStr "1")])
  = inl (StageResolver.UnknownParameterError "z").
Proof. reflexivity. Qed.

Example example_collision_rejected :
  StageResolver.resolve example_registry colliding_stage
  = inl (StageResolver.AmbiguousParameterError "b").
Proof. reflexivity. Qed.

